(** * libfive / ao kernel: feature compatibility, interval tapes, QEF cutoff

    A shallow embedding of
      - [src/ao/src/eval/feature.cpp]            ([Feature]),
      - [libfive/eval/eval_interval.hpp]         ([IntervalEvaluator]),
      - [libfive/render/brep/dc/dc_tree.hpp]     ([DCTree::EIGENVALUE_CUTOFF]).

    Numbers.  [Eigen::Vector3d] holds C++ doubles.  The geometric code of
    [Feature] is embedded over the real numbers [R]: every double operation
    is read as the exact real operation, so rounding is not modelled, and
    the exact comparisons of the source ([== 0], [!= -1], [!= 1]) are exact
    comparisons of reals.  The one place where the binary representation is
    the subject itself, the literal [0.1f], is embedded with the IEEE-754
    operations of [SpecFloat]. *)

From Stdlib Require Import Reals Lra Lia Psatz List Bool ZArith.
From Stdlib Require Import SpecFloat.
From Stdlib Require Import Permutation FinFun.
Import ListNotations.

Local Open Scope R_scope.

(** ** Eigen::Vector3d *)

Module Eigen.

Record Vector3d : Type := Vec3 { vx : R; vy : R; vz : R }.

Definition zero : Vector3d := Vec3 0 0 0.

(** [a.dot(b)] *)
Definition dot (a b : Vector3d) : R :=
  vx a * vx b + vy a * vy b + vz a * vz b.

(** [a.cross(b)] *)
Definition cross (a b : Vector3d) : Vector3d :=
  Vec3 (vy a * vz b - vz a * vy b)
       (vz a * vx b - vx a * vz b)
       (vx a * vy b - vy a * vx b).

Definition squaredNorm (a : Vector3d) : R := dot a a.

(** [a.norm()] *)
Definition norm (a : Vector3d) : R := sqrt (squaredNorm a).

(** [a /= s], componentwise *)
Definition vdiv (a : Vector3d) (s : R) : Vector3d :=
  Vec3 (vx a / s) (vy a / s) (vz a / s).

Definition vscale (s : R) (a : Vector3d) : Vector3d :=
  Vec3 (s * vx a) (s * vy a) (s * vz a).

Definition vadd (a b : Vector3d) : Vector3d :=
  Vec3 (vx a + vx b) (vy a + vy b) (vz a + vz b).

Definition vopp (a : Vector3d) : Vector3d :=
  Vec3 (- vx a) (- vy a) (- vz a).

(** [a.normalized()] and [a.normalize()]: Eigen divides by the norm when the
    squared norm is positive and leaves the vector as it is otherwise.
    (Older releases of Eigen divide in every case and turn the zero vector
    into NaNs; [checkPlanar] answers [NOT_PLANAR] on a vanishing cross
    product either way, because its test is [!= 1].) *)
Definition normalized (a : Vector3d) : Vector3d :=
  if Rlt_dec 0 (squaredNorm a) then vdiv a (sqrt (squaredNorm a)) else a.

(** [a == b], all coefficients equal *)
Definition veq_dec (a b : Vector3d) : {a = b} + {a <> b}.
Proof.
  destruct a as [ax ay az], b as [bx by_ bz].
  destruct (Req_dec_T ax bx) as [Hx | Hx];
    [destruct (Req_dec_T ay by_) as [Hy | Hy];
      [destruct (Req_dec_T az bz) as [Hz | Hz] |] |].
  - left; subst; reflexivity.
  - right; intros H; injection H; intros; contradiction.
  - right; intros H; injection H; intros; contradiction.
  - right; intros H; injection H; intros; contradiction.
Defined.

Definition veqb (a b : Vector3d) : bool :=
  if veq_dec a b then true else false.

End Eigen.

Import Eigen.

(** [std::min(a, b)] is [(b < a) ? b : a]; [std::max(a, b)] is
    [(a < b) ? b : a]. *)
Definition std_min (a b : R) : R := if Rlt_dec b a then b else a.
Definition std_max (a b : R) : R := if Rlt_dec a b then b else a.

(** ** Feature (feature.cpp) *)

Module Feature.

(** [Feature::Choice]: the clause id and the branch taken there. *)
Record Choice : Type := mkChoice { id : nat; choice : Z }.

(** [std::map<Clause::Id, Eigen::Vector3d>] with [m[k] = v]. *)
Definition EpsMap : Type := nat -> option Vector3d.

Definition map_assign (m : EpsMap) (k : nat) (v : Vector3d) : EpsMap :=
  fun k' => if Nat.eqb k' k then Some v else m k'.

(** [operator<] on choices: by [id], then by [choice]. *)
Definition choice_lt (x y : Choice) : bool :=
  if negb (Nat.eqb (id x) (id y)) then Nat.ltb (id x) (id y)
  else Z.ltb (choice x) (choice y).

Record t : Type := mkFeature {
  epsilons : list Vector3d;       (* std::list<Eigen::Vector3d> *)
  choices : list Choice;          (* std::list<Choice> *)
  _epsilons : EpsMap
}.

Inductive PlanarResult : Type :=
| PLANAR_FAIL
| PLANAR_SUCCESS
| NOT_PLANAR.

(** The [while (++itr != epsilons.end())] loop of [checkPlanar] together
    with the final comparison against [M_PI].  [asin] is the total function
    of the standard library of reals; on the norm of a cross product of
    unit vectors its argument lies in [[0, 1]]. *)
Fixpoint checkPlanar_loop (v cross_ : Vector3d) (rest : list Vector3d)
    (angle_min angle_max : R) : PlanarResult :=
  match rest with
  | [] =>
      if Rgt_dec (angle_max - angle_min) PI then PLANAR_FAIL
      else PLANAR_SUCCESS
  | itr :: rest' =>
      let c := cross itr v in
      let c_ := normalized c in
      if Req_dec_T (Rabs (dot c_ cross_)) 1 then
        let angle := asin (norm c) in
        checkPlanar_loop v cross_ rest'
          (std_min angle angle_min) (std_max angle angle_max)
      else NOT_PLANAR
  end.

Definition checkPlanar (f : t) (v : Vector3d) : PlanarResult :=
  match epsilons f with
  | [] => NOT_PLANAR
  | [_] => NOT_PLANAR
  | itr :: rest =>
      let v := normalized v in
      let cross0 := cross itr v in
      let cross_ := normalized cross0 in
      let angle := asin (norm cross0) in
      let angle_min := std_min 0 angle in
      let angle_max := std_max 0 angle in
      checkPlanar_loop v cross_ rest angle_min angle_max
  end.

(** *** The O(n^3) search of [isCompatible]

    The three loops run over iterators of the same list [es]; [a == b]
    compares iterators, that is positions.  Positions are carried along
    with the vectors. *)

Definition indexed (es : list Vector3d) : list (nat * Vector3d) :=
  combine (seq 0 (length es)) es.

(** One turn of the innermost loop body past the [continue]: the state is
    [(sign, passed)]. *)
Definition sign_step (nrm : Vector3d) (st : Z * bool) (c : Vector3d)
    : Z * bool :=
  let d := dot nrm c in
  if Rlt_dec d 0 then (-1, snd st && (fst st <=? 0))%Z
  else if Rgt_dec d 0 then (1, snd st && (fst st >=? 0))%Z
  else (fst st, false).

(** [for (c = es.begin(); passed && c != es.end(); ++c)] *)
Fixpoint c_loop (nrm : Vector3d) (a b : nat) (cs : list (nat * Vector3d))
    (st : Z * bool) : Z * bool :=
  match cs with
  | [] => st
  | (ci, c) :: cs' =>
      if snd st then
        if Nat.eqb a ci || Nat.eqb b ci then c_loop nrm a b cs' st
        else c_loop nrm a b cs' (sign_step nrm st c)
      else st
  end.

(** [for (b = es.begin(); b != es.end(); ++b)], returning [true] when the
    body reaches [return true]. *)
Fixpoint b_loop (es : list (nat * Vector3d)) (a : nat) (av : Vector3d)
    (bs : list (nat * Vector3d)) : bool :=
  match bs with
  | [] => false
  | (b, bv) :: bs' =>
      if Nat.eqb a b || (if Req_dec_T (dot av bv) (-1) then true else false)
      then b_loop es a av bs'
      else
        let nrm := cross av bv in
        if snd (c_loop nrm a b es (0%Z, true)) then true
        else b_loop es a av bs'
  end.

Fixpoint a_loop (es : list (nat * Vector3d)) (as_ : list (nat * Vector3d))
    : bool :=
  match as_ with
  | [] => false
  | (a, av) :: as' =>
      if b_loop es a av es then true else a_loop es as'
  end.

(** Lines 44-89: [es = epsilons; es.push_back(e);] and the search. *)
Definition general_case (f : t) (e : Vector3d) : bool :=
  let es := indexed (epsilons f ++ [e]) in
  a_loop es es.

(** Which [return] statement of [isCompatible] produced the answer. *)
Inductive Exit : Type :=
| ExitZeroNorm        (* line 11 *)
| ExitEmpty           (* line 18 *)
| ExitSingle          (* line 22 *)
| ExitPresent         (* line 30 *)
| ExitPlanar          (* lines 37, 38 *)
| ExitGeneral.        (* lines 85, 89 *)

(** [isCompatible], returning the answer and the exit taken. *)
Definition isCompatible_exit (f : t) (e : Vector3d) : bool * Exit :=
  let nrm := norm e in
  if Req_dec_T nrm 0 then (false, ExitZeroNorm)
  else
    let e := vdiv e nrm in
    match epsilons f with
    | [] => (true, ExitEmpty)
    | [front] =>
        ((if Req_dec_T (dot e front) (-1) then false else true), ExitSingle)
    | _ =>
        if existsb (veqb e) (epsilons f) then (true, ExitPresent)
        else
          match checkPlanar f e with
          | PLANAR_FAIL => (false, ExitPlanar)
          | PLANAR_SUCCESS => (true, ExitPlanar)
          | NOT_PLANAR => (general_case f e, ExitGeneral)
          end
    end.

Definition isCompatible (f : t) (e : Vector3d) : bool :=
  fst (isCompatible_exit f e).

(** [push_raw]: no compatibility test. *)
Definition push_raw (f : t) (c : Choice) (v : Vector3d) : t :=
  let v := normalized v in
  mkFeature (epsilons f ++ [v]) (choices f ++ [c])
            (map_assign (_epsilons f) (id c) v).

(** [push]: the returned flag and the state afterwards. *)
Definition push (f : t) (e : Vector3d) (c : Choice) : bool * t :=
  if isCompatible f e then
    let choices' := c :: choices f in
    let m' := map_assign (_epsilons f) (id c) e in
    let e := normalized e in
    if existsb (veqb e) (epsilons f)
    then (true, mkFeature (epsilons f) choices' m')
    else (true, mkFeature (epsilons f ++ [e]) choices' m')
  else (false, f).

End Feature.

(** ** What the specification says about compatibility

    These definitions follow the words of the specification, not the
    code; the properties below compare them with [Feature.isCompatible]. *)

Module FeatureSpec.

(** "admit a single half-space (a linear functional [n] with [n.e_i > 0]
    for every stored [e_i] and for [e])" *)
Definition half_space (vs : list Vector3d) : Prop :=
  exists n : Vector3d, forall v, In v vs -> 0 < dot n v.

Definition unit_vectors (vs : list Vector3d) : Prop :=
  forall v, In v vs -> squaredNorm v = 1.

(** "for each ordered pair (a, b) in epsilons + {e} with a.b <> -1, take
    n = a x b; check whether every other vector c has n.c of a single
    consistent sign (zero => fail)".  The pair is given by positions [i]
    and [j] in the list. *)
Definition pair_witness (es : list Vector3d) (i j : nat) : Prop :=
  i <> j /\
  exists a b,
    nth_error es i = Some a /\ nth_error es j = Some b /\
    dot a b <> -1 /\
    ((forall k c, k <> i -> k <> j -> nth_error es k = Some c ->
                  dot (cross a b) c < 0) \/
     (forall k c, k <> i -> k <> j -> nth_error es k = Some c ->
                  0 < dot (cross a b) c)).

(** Two cross products are colinear: neither vanishes and their own cross
    product does. *)
Definition colinear (c k : Vector3d) : Prop :=
  c <> zero /\ k <> zero /\ cross c k = zero.

End FeatureSpec.

(** ** Concrete features used in the scenarios *)

Module Scenarios.

Import Feature.

Definition no_map : EpsMap := fun _ => None.

(** The feature obtained from an empty one by [push_raw] of the given unit
    vectors; only [epsilons] matters to [isCompatible]. *)
Definition with_epsilons (es : list Vector3d) : Feature.t :=
  mkFeature es [] no_map.

(** A feature as it is constructed, and a run of [push] calls on it that
    stops at the first rejection; the choice pushed with the n-th epsilon
    has id n. *)
Definition empty : Feature.t := mkFeature [] [] no_map.

Fixpoint push_all (f : Feature.t) (vs : list Vector3d) : bool * Feature.t :=
  match vs with
  | [] => (true, f)
  | v :: vs' =>
      let r := push f v (mkChoice (length (choices f)) 0) in
      if fst r then push_all (snd r) vs' else r
  end.

(** The unit vector at angle [theta] in the plane [z = 0]. *)
Definition polar (theta : R) : Vector3d := Vec3 (cos theta) (sin theta) 0.

(** "epsilons = {(1,0,0), (cos t, sin t, 0)} for t = pi/3" *)
Definition planar_pair : Feature.t :=
  with_epsilons [Vec3 1 0 0; polar (PI / 3)].

(** "epsilons = {(1,0,0), (0,1,0)}" *)
Definition xy_pair : Feature.t :=
  with_epsilons [Vec3 1 0 0; Vec3 0 1 0].

(** The three axes, which span a cone with three faces, and a unit vector
    inside two of the faces. *)
Definition cone5 : Feature.t :=
  with_epsilons
    [Vec3 1 0 0; Vec3 0 1 0; Vec3 0 0 1;
     Vec3 (3/5) (4/5) 0; Vec3 0 (3/5) (4/5)].

(** A unit vector inside the third face. *)
Definition in_face_xz : Vector3d := Vec3 (4/5) 0 (3/5).

(** A unit vector outside the cone, in the plane [z = 0]. *)
Definition outside : Vector3d := Vec3 (3/5) (-4/5) 0.

End Scenarios.

(** ** Interval evaluation over a tape (eval_interval.hpp)

    The header declares [IntervalEvaluator]; the bodies of [eval],
    [intervalAndPush] and [push], the interval type and the tape are in
    files that are not part of the sources at hand.  They are modelled
    from the specification, section 3 and section 4.1. *)

Module Interval.

(** Modelled from the spec: [Interval::I] of interval.hpp, "ordered pair
    (lo, hi) of reals". *)
Record I : Type := mkI { lower : R; upper : R }.

Definition contains (i : I) (x : R) : Prop := lower i <= x <= upper i.

(** Modelled from the spec: the interval [min] of interval.hpp, "the
    result is [min(aLo,bLo), min(aHi,bHi)]". *)
Definition min (a b : I) : I :=
  mkI (Rmin (lower a) (lower b)) (Rmin (upper a) (upper b)).

(** Modelled from the spec: the interval [max] of interval.hpp, "and
    symmetrically for max". *)
Definition max (a b : I) : I :=
  mkI (Rmax (lower a) (lower b)) (Rmax (upper a) (upper b)).

End Interval.

Module Opcode.

(** Modelled from the spec: the opcodes of opcode.hpp, as section 4.1
    lists them; [OP_PASS] is the "pass-through" that a shortened tape puts
    in the place of a decided [min] or [max]. *)
Inductive Opcode : Type :=
| OP_ADD | OP_SUB | OP_MUL | OP_DIV | OP_NEG | OP_ABS | OP_SQRT | OP_SQUARE
| OP_EXP | OP_LOG | OP_SIN | OP_COS | OP_TAN | OP_ASIN | OP_ACOS | OP_ATAN
| OP_ATAN2 | OP_POW
| OP_MIN | OP_MAX
| OP_COMPARE
| OP_PASS.

(** The operations that the arithmetic of interval.hpp supplies; [min],
    [max] and the pass-through are handled by the evaluator itself. *)
Definition elementwise (o : Opcode) : bool :=
  match o with
  | OP_MIN | OP_MAX | OP_PASS => false
  | _ => true
  end.

End Opcode.

Module Clause.

Import Opcode.

Definition Id : Type := nat.

(** Modelled from the spec: the clause of clause.hpp, "(opcode, id, a, b)
    where id is the destination slot and a, b index earlier slots or are
    unused sentinels". *)
Record Clause : Type := mkClause {
  op : Opcode;
  id : Id;
  a : Id;
  b : Id
}.

End Clause.

Module Tape.

Import Opcode Clause.

(** Modelled from the spec: the tape of tape.hpp, "an ordered clause
    sequence with a root id"; the root clause comes first and the tape is
    "read back-to-front starting from the root clause". *)
Record Tape : Type := mkTape {
  clauses : list Clause;
  root : Id
}.

(** Modelled from the spec: the storage of an evaluator of base.hpp, one
    value per slot, indexed by clause id. *)
Definition Slots (V : Type) : Type := Id -> V.

Definition store_slot {V : Type} (k : Id) (v : V) (m : Slots V) : Slots V :=
  fun k' => if Nat.eqb k' k then v else m k'.

(** The per-clause operation that an evaluator supplies to the walker:
    [operator()(Opcode::Opcode op, Clause::Id id, Clause::Id a,
    Clause::Id b)] of the header, on the values of the operand slots. *)
Class Evaluator (V : Type) : Type := {
  clause_op : Opcode -> V -> V -> V
}.

Definition apply_clause {V : Type} `{Evaluator V} (c : Clause)
    (m : Slots V) : Slots V :=
  store_slot (id c) (clause_op (op c) (m (a c)) (m (b c))) m.

(** Modelled from the spec: [Tape::rwalk] of tape.hpp.  The clause list
    has the root first; the walk is "bottom-up", so the last clause is
    evaluated first. *)
Definition rwalk {V : Type} `{Evaluator V} (cs : list Clause)
    (m : Slots V) : Slots V :=
  fold_right apply_clause m cs.

(** Modelled from the spec: the shape of the tapes that the compiler of
    deck.hpp emits, "single-assignment" with operands that "index earlier
    slots": no clause reads the slot that it writes or a slot that a
    clause nearer to the root writes. *)
Fixpoint well_formed (cs : list Clause) : Prop :=
  match cs with
  | [] => True
  | c :: rest =>
      a c <> id c /\ b c <> id c /\
      (forall c', In c' rest -> a c' <> id c /\ b c' <> id c) /\
      well_formed rest
  end.

(** Modelled from the spec: the slots that a clause of tape.hpp reads; a
    pass-through reads one. *)
Definition operands (c : Clause) : list Id :=
  match op c with
  | OP_PASS => [a c]
  | _ => [a c; b c]
  end.

Definition is_active (active : list Id) (k : Id) : bool :=
  existsb (Nat.eqb k) active.

(** Modelled from the spec: the second half of [Tape::push], "then
    topologically drop unreachable clauses".  [active] holds the slots
    that are known to be read, at first the root. *)
Fixpoint drop_unreachable (active : list Id) (cs : list Clause)
    : list Clause :=
  match cs with
  | [] => []
  | c :: rest =>
      if is_active active (id c)
      then c :: drop_unreachable (operands c ++ active) rest
      else drop_unreachable active rest
  end.

End Tape.

Module IntervalEvaluator.

Import Opcode Clause Tape.

Definition Vector3f : Type := Vector3d.

(** Modelled from the spec: what interval.hpp and the math library give
    for the elementwise operations and comparisons: the operation on
    numbers, the operation on intervals, and, for every operation,
    whether the result may be NaN given the operand intervals and the
    operands' own flags. *)
Record Arithmetic : Type := mkArithmetic {
  point_fn : Opcode -> R -> R -> R;
  interval_fn : Opcode -> Interval.I -> Interval.I -> Interval.I;
  nan_fn : Opcode -> Interval.I -> Interval.I -> bool -> bool -> bool
}.

(** Modelled from the spec: the deck of deck.hpp, as far as evaluation
    needs it: the slots of the three coordinates and of the constants. *)
Record Deck : Type := mkDeck {
  X : Id;
  Y : Id;
  Z : Id;
  constants : list (Id * R)
}.

(** One entry of the two vectors [i] and [maybe_nan] of the header. *)
Record Cell : Type := mkCell {
  i : Interval.I;
  maybe_nan : bool
}.

(** [store(float f, size_t index)]: "Sets i[index] = f and
    maybe_nan[index] = std::isnan(f)"; a real number is not NaN. *)
Definition store (f : R) (index : Id) (m : Slots Cell) : Slots Cell :=
  store_slot index (mkCell (Interval.mkI f f) false) m.

(** Modelled from the spec: the body of [operator()] in
    eval_interval.cpp.  [min] and [max] are the combinators of section
    4.1, a pass-through copies its operand, the rest is elementwise. *)
Definition interval_clause (ar : Arithmetic) (o : Opcode) (x y : Cell)
    : Cell :=
  match o with
  | OP_MIN => mkCell (Interval.min (i x) (i y))
                     (nan_fn ar o (i x) (i y) (maybe_nan x) (maybe_nan y))
  | OP_MAX => mkCell (Interval.max (i x) (i y))
                     (nan_fn ar o (i x) (i y) (maybe_nan x) (maybe_nan y))
  | OP_PASS => x
  | _ => mkCell (interval_fn ar o (i x) (i y))
                (nan_fn ar o (i x) (i y) (maybe_nan x) (maybe_nan y))
  end.

(** Modelled from the spec: evaluation at a point, the reading of the
    same clauses on numbers ("eval_original(p)", "the true value f(p)"). *)
Definition point_clause (ar : Arithmetic) (o : Opcode) (x y : R) : R :=
  match o with
  | OP_MIN => Rmin x y
  | OP_MAX => Rmax x y
  | OP_PASS => x
  | _ => point_fn ar o x y
  end.

Definition interval_evaluator (ar : Arithmetic) : Evaluator Cell :=
  {| clause_op := interval_clause ar |}.

Definition point_evaluator (ar : Arithmetic) : Evaluator R :=
  {| clause_op := point_clause ar |}.

(** Modelled from the spec: the slots before the walk, as the
    constructors of eval_interval.cpp and [eval] fill them: constants,
    then the coordinates of the box or of the point. *)
Definition load_constants (cs : list (Id * R)) (m : Slots Cell)
    : Slots Cell :=
  fold_right (fun kv => store (snd kv) (fst kv)) m cs.

Definition load_box (d : Deck) (lower upper : Vector3f) : Slots Cell :=
  store_slot (X d) (mkCell (Interval.mkI (vx lower) (vx upper)) false)
    (store_slot (Y d) (mkCell (Interval.mkI (vy lower) (vy upper)) false)
      (store_slot (Z d) (mkCell (Interval.mkI (vz lower) (vz upper)) false)
        (load_constants (constants d)
           (fun _ => mkCell (Interval.mkI 0 0) false)))).

Definition load_point (d : Deck) (p : Vector3f) : Slots R :=
  store_slot (X d) (vx p)
    (store_slot (Y d) (vy p)
      (store_slot (Z d) (vz p)
        (fold_right (fun kv => store_slot (fst kv) (snd kv))
           (fun _ => 0) (constants d)))).

(** Modelled from the spec: the state of the evaluator after
    [eval(lower, upper, tape)], which "populates per-clause interval cache
    i[.] and maybe_nan[.], bottom-up over the active tape". *)
Definition evaluate (ar : Arithmetic) (d : Deck) (lower upper : Vector3f)
    (t : Tape) : Slots Cell :=
  rwalk (H := interval_evaluator ar) (clauses t) (load_box d lower upper).

(** Modelled from the spec: [eval] of eval_interval.cpp, "Result:
    interval at the root clause". *)
Definition eval (ar : Arithmetic) (d : Deck) (lower upper : Vector3f)
    (t : Tape) : Interval.I :=
  i (evaluate ar d lower upper t (root t)).

(** Modelled from the spec: evaluation of a tape at a point. *)
Definition eval_point (ar : Arithmetic) (d : Deck) (p : Vector3f)
    (t : Tape) : R :=
  rwalk (H := point_evaluator ar) (clauses t) (load_point d p) (root t).

(** Modelled from the spec: the choice that [push] of eval_interval.cpp
    makes at a clause, "for every min/max whose operand intervals are
    disjoint (a.hi < b.lo or b.hi < a.lo), replace the clause with a
    pass-through to the dominant side". *)
Definition shorten (m : Slots Cell) (c : Clause) : Clause :=
  let ia := i (m (a c)) in
  let ib := i (m (b c)) in
  match op c with
  | OP_MIN =>
      if Rlt_dec (Interval.upper ia) (Interval.lower ib)
      then mkClause OP_PASS (id c) (a c) (b c)
      else if Rlt_dec (Interval.upper ib) (Interval.lower ia)
      then mkClause OP_PASS (id c) (b c) (a c)
      else c
  | OP_MAX =>
      if Rlt_dec (Interval.upper ia) (Interval.lower ib)
      then mkClause OP_PASS (id c) (b c) (a c)
      else if Rlt_dec (Interval.upper ib) (Interval.lower ia)
      then mkClause OP_PASS (id c) (a c) (b c)
      else c
  | _ => c
  end.

(** Modelled from the spec: [push(tape)] of eval_interval.cpp, "Returns a
    shortened tape based on the most recent evaluation". *)
Definition push (m : Slots Cell) (t : Tape) : Tape :=
  mkTape (drop_unreachable [root t] (map (shorten m) (clauses t)))
         (root t).

(** [struct Result { Interval::I i; bool safe; std::shared_ptr<Tape>
    tape; }] *)
Record Result : Type := mkResult {
  result_i : Interval.I;
  safe : bool;
  tape : Tape
}.

(** Modelled from the spec: [eval_] of eval_interval.cpp, the full result
    of an evaluation on the given tape. *)
Definition eval_ (ar : Arithmetic) (d : Deck) (lower upper : Vector3f)
    (t : Tape) : Result :=
  let m := evaluate ar d lower upper t in
  mkResult (i (m (root t))) (negb (maybe_nan (m (root t)))) t.

(** Modelled from the spec: [intervalAndPush] of eval_interval.cpp,
    "intervalAndPush(lower, upper) -> (I, tape')". *)
Definition intervalAndPush (ar : Arithmetic) (d : Deck)
    (lower upper : Vector3f) (t : Tape) : Result :=
  let m := evaluate ar d lower upper t in
  mkResult (i (m (root t))) (negb (maybe_nan (m (root t)))) (push m t).

(** "Inputs: two N-vectors with lower <= upper componentwise": the points
    of the box. *)
Definition in_box (lower upper p : Vector3f) : Prop :=
  vx lower <= vx p <= vx upper /\
  vy lower <= vy p <= vy upper /\
  vz lower <= vz p <= vz upper.

(** The invariant of section 3 for the elementwise operations: "the true
    image of the operation over the input intervals is a subset of the
    returned interval". *)
Definition outward_sound (ar : Arithmetic) : Prop :=
  forall o ia ib x y,
    elementwise o = true ->
    Interval.contains ia x -> Interval.contains ib y ->
    Interval.contains (interval_fn ar o ia ib) (point_fn ar o x y).

(** Two slot maps are related when every interval holds its number. *)
Definition encloses (mI : Slots Cell) (mP : Slots R) : Prop :=
  forall k, Interval.contains (i (mI k)) (mP k).

End IntervalEvaluator.

(** ** A small tape and the textbook interval arithmetic on reals

    An arithmetic for six of the operations, with exact endpoints; the
    operations it does not know return 0. *)

Module TapeScenario.

Import Opcode Clause Tape IntervalEvaluator.

Definition exact_point (o : Opcode) (x y : R) : R :=
  match o with
  | OP_ADD => x + y
  | OP_SUB => x - y
  | OP_MUL => x * y
  | OP_NEG => - x
  | OP_ABS => Rabs x
  | OP_SQUARE => x * x
  | _ => 0
  end.

Definition interval_mul (ia ib : Interval.I) : Interval.I :=
  let ll := Interval.lower ia * Interval.lower ib in
  let lu := Interval.lower ia * Interval.upper ib in
  let ul := Interval.upper ia * Interval.lower ib in
  let uu := Interval.upper ia * Interval.upper ib in
  Interval.mkI (Rmin (Rmin ll lu) (Rmin ul uu))
               (Rmax (Rmax ll lu) (Rmax ul uu)).

Definition interval_abs (ia : Interval.I) : Interval.I :=
  if Rle_dec 0 (Interval.lower ia) then ia
  else if Rle_dec (Interval.upper ia) 0
  then Interval.mkI (- Interval.upper ia) (- Interval.lower ia)
  else Interval.mkI 0 (Rmax (- Interval.lower ia) (Interval.upper ia)).

Definition exact_interval (o : Opcode) (ia ib : Interval.I) : Interval.I :=
  match o with
  | OP_ADD => Interval.mkI (Interval.lower ia + Interval.lower ib)
                           (Interval.upper ia + Interval.upper ib)
  | OP_SUB => Interval.mkI (Interval.lower ia - Interval.upper ib)
                           (Interval.upper ia - Interval.lower ib)
  | OP_MUL => interval_mul ia ib
  | OP_NEG => Interval.mkI (- Interval.upper ia) (- Interval.lower ia)
  | OP_ABS => interval_abs ia
  | OP_SQUARE => interval_mul (interval_abs ia) (interval_abs ia)
  | _ => Interval.mkI 0 0
  end.

Definition exact : Arithmetic :=
  mkArithmetic exact_point exact_interval (fun _ _ _ na nb => na || nb).

(** Slots 1, 2, 3 hold x, y, z and slot 4 holds the constant 10. *)
Definition deck : Deck := mkDeck 1%nat 2%nat 3%nat [(4%nat, 10)].

(** [min(x + 10, -z)], root first. *)
Definition tape_min : Tape :=
  mkTape [mkClause OP_MIN 7%nat 5%nat 6%nat;
          mkClause OP_NEG 6%nat 3%nat 0%nat;
          mkClause OP_ADD 5%nat 1%nat 4%nat] 7%nat.

(** On the unit cube [x + 10] lies in [10, 11] and [-z] in [-1, 0]: the
    [min] is decided, the sum is not needed. *)
Definition tape_min_pushed : Tape :=
  mkTape [mkClause OP_PASS 7%nat 6%nat 5%nat;
          mkClause OP_NEG 6%nat 3%nat 0%nat] 7%nat.

Definition cube_lower : Vector3f := Vec3 0 0 0.
Definition cube_upper : Vector3f := Vec3 1 1 1.
Definition cube_centre : Vector3f := Vec3 (1/2) (1/2) (1/2).

End TapeScenario.

(** ** DCTree::EIGENVALUE_CUTOFF (dc_tree.hpp) *)

Module DCTree.

(** The binary32 value of an integer literal. *)
Definition float_of_Z (z : Z) : spec_float := binary_normalize 24 128 z 0 false.

(** The literal [0.1f]: the binary32 value nearest to one tenth, which is
    the correctly rounded quotient of the binary32 values 1 and 10. *)
Definition literal_0_1f : spec_float :=
  SFdiv 24 128 (float_of_Z 1) (float_of_Z 10).

(** The conversion from [float] to [double] that initializes the
    constant. *)
Definition double_of_float (x : spec_float) : spec_float :=
  match x with
  | S754_finite s m e => binary_normalize 53 1024 (Z.pos m) e s
  | _ => x
  end.

(** [constexpr static double EIGENVALUE_CUTOFF=0.1f;] *)
Definition EIGENVALUE_CUTOFF : spec_float := double_of_float literal_0_1f.

(** The real number that a finite floating-point value stands for. *)
Definition real_value (x : spec_float) : R :=
  match x with
  | S754_finite s m e =>
      (if s then -1 else 1) * IZR (Z.pos m) * powerRZ 2 e
  | _ => 0
  end.

End DCTree.

(** ** Sequences of pushes and families of vectors

    What the callers of [Feature] do with it, and predicates on lists of
    vectors that the properties of [isCompatible] are stated with. *)

Module FeatureUse.

Import Feature.

(** A caller pushing one epsilon after the other, whatever each call
    returns. *)
Fixpoint push_seq (f : Feature.t) (ops : list (Vector3d * Choice))
    : Feature.t :=
  match ops with
  | [] => f
  | (e, c) :: ops' => push_seq (snd (push f e c)) ops'
  end.

(** No call of the sequence is answered at the planar exit of
    [isCompatible]. *)
Fixpoint planar_free (f : Feature.t) (ops : list (Vector3d * Choice))
    : Prop :=
  match ops with
  | [] => True
  | (e, c) :: ops' =>
      snd (isCompatible_exit f e) <> ExitPlanar /\
      planar_free (snd (push f e c)) ops'
  end.

(** Every recorded choice has its epsilon in the map. *)
Definition choices_mapped (f : Feature.t) : Prop :=
  forall c, In c (choices f) -> exists v, _epsilons f (id c) = Some v.

(** The cross products of the vectors of [es] with [v] all differ from
    zero and are parallel to each other. *)
Definition crosses_parallel (es : list Vector3d) (v : Vector3d) : Prop :=
  (forall a, In a es -> cross a v <> zero) /\
  (forall a b, In a es -> In b es ->
               cross (cross a v) (cross b v) = zero).

(** All vectors of [vs] lie in one plane through the origin. *)
Definition coplanar (vs : list Vector3d) : Prop :=
  exists m, m <> zero /\ forall v, In v vs -> dot m v = 0.

(** Two choices and two unit vectors of the plane [z = 0] for the
    instances: one between the first two axes, one behind both. *)
Definition c0 : Choice := mkChoice 0 0.
Definition c1 : Choice := mkChoice 1 1.
Definition between : Vector3d := Vec3 (3/5) (4/5) 0.
Definition behind : Vector3d := Vec3 (-3/5) (-4/5) 0.

End FeatureUse.

(** * Properties *)

(** ** Facts about vectors *)

Module EigenFacts.

Lemma squaredNorm_nonneg (a : Vector3d) : 0 <= squaredNorm a.
Proof. unfold squaredNorm, dot. nra. Qed.

Lemma norm_nonneg (a : Vector3d) : 0 <= norm a.
Proof. apply sqrt_pos. Qed.

Lemma squaredNorm_zero_inv (a : Vector3d) : squaredNorm a = 0 -> a = zero.
Proof.
  destruct a as [x y z]; unfold squaredNorm, dot, zero; simpl; intros H.
  assert (x = 0) by nra. assert (y = 0) by nra. assert (z = 0) by nra.
  subst; reflexivity.
Qed.

Lemma norm_zero : norm zero = 0.
Proof.
  unfold norm, squaredNorm, dot, zero; simpl.
  replace (0 * 0 + 0 * 0 + 0 * 0) with 0 by ring. apply sqrt_0.
Qed.

Lemma norm_eq_0_inv (a : Vector3d) : norm a = 0 -> a = zero.
Proof.
  intros H. apply squaredNorm_zero_inv.
  apply sqrt_eq_0; [apply squaredNorm_nonneg | exact H].
Qed.

Lemma norm_neq_0 (a : Vector3d) : a <> zero -> norm a <> 0.
Proof. intros Ha H; apply Ha, norm_eq_0_inv, H. Qed.

Lemma norm_sqr (a : Vector3d) : norm a * norm a = squaredNorm a.
Proof. apply sqrt_sqrt, squaredNorm_nonneg. Qed.

(** A vector whose squared norm is [r * r] with [0 <= r] has norm [r]. *)
Lemma norm_of_square (a : Vector3d) (r : R) :
  0 <= r -> squaredNorm a = r * r -> norm a = r.
Proof. intros Hr H. unfold norm. rewrite H. apply sqrt_square, Hr. Qed.

Lemma squaredNorm_vdiv (a : Vector3d) (s : R) :
  s <> 0 -> squaredNorm (vdiv a s) = squaredNorm a / (s * s).
Proof. intros Hs. unfold squaredNorm, dot, vdiv; simpl. field. exact Hs. Qed.

(** [e /= e.norm()] gives a unit vector. *)
Lemma unit_vdiv_norm (e : Vector3d) :
  norm e <> 0 -> squaredNorm (vdiv e (norm e)) = 1.
Proof.
  intros H. rewrite squaredNorm_vdiv by exact H.
  rewrite norm_sqr. apply Rinv_r. rewrite <- norm_sqr. nra.
Qed.

Lemma vdiv_1 (a : Vector3d) : vdiv a 1 = a.
Proof. destruct a; unfold vdiv; simpl; f_equal; field. Qed.

Lemma normalized_unit (a : Vector3d) : squaredNorm a = 1 -> normalized a = a.
Proof.
  intros H. unfold normalized. rewrite H.
  destruct (Rlt_dec 0 1) as [_ | Hn]; [| lra].
  rewrite sqrt_1. apply vdiv_1.
Qed.

(** For a vector that is not the zero vector, [normalized] is the division
    by the norm that [isCompatible] writes out. *)
Lemma normalized_vdiv (a : Vector3d) :
  norm a <> 0 -> normalized a = vdiv a (norm a).
Proof.
  intros H. unfold normalized.
  destruct (Rlt_dec 0 (squaredNorm a)) as [_ | Hn]; [reflexivity |].
  exfalso. apply H. unfold norm.
  assert (squaredNorm a = 0) as ->
      by (pose proof (squaredNorm_nonneg a); lra).
  apply sqrt_0.
Qed.

Lemma normalized_zero : normalized zero = zero.
Proof.
  unfold normalized. destruct (Rlt_dec 0 (squaredNorm zero)) as [H | _].
  - unfold squaredNorm, dot, zero in H; simpl in H. lra.
  - reflexivity.
Qed.

Lemma veqb_true_iff (a b : Vector3d) : veqb a b = true <-> a = b.
Proof. unfold veqb. destruct (veq_dec a b); split; congruence. Qed.

Lemma existsb_veqb_In (a : Vector3d) (l : list Vector3d) :
  existsb (veqb a) l = true <-> In a l.
Proof.
  rewrite existsb_exists. split.
  - intros [x [Hx Hab]]. apply veqb_true_iff in Hab. subst; exact Hx.
  - intros H. exists a. split; [exact H | apply veqb_true_iff; reflexivity].
Qed.

(** The angle [asin(c.norm())] of [checkPlanar] lies in [[0, PI/2]]. *)
Lemma asin_norm_range (c : Vector3d) : 0 <= asin (norm c) <= PI / 2.
Proof.
  pose proof (norm_nonneg c) as Hc.
  pose proof (asin_bound (norm c)) as [_ Hhi].
  split; [| exact Hhi].
  destruct Hc as [Hc | Hc].
  - unfold asin. destruct (Rle_dec (norm c) (-1)); [lra |].
    destruct (Rle_dec 1 (norm c)) as [H1 | H1].
    + pose proof PI_RGT_0; lra.
    + rewrite <- atan_0. left. apply atan_increasing.
      apply Rdiv_lt_0_compat; [exact Hc |].
      apply sqrt_lt_R0. unfold Rsqr. nra.
  - rewrite <- Hc, asin_0. lra.
Qed.

Lemma std_min_Rmin (a b : R) : std_min a b = Rmin a b.
Proof.
  unfold std_min, Rmin. destruct (Rlt_dec b a), (Rle_dec a b); lra.
Qed.

Lemma std_max_Rmax (a b : R) : std_max a b = Rmax a b.
Proof.
  unfold std_max, Rmax. destruct (Rlt_dec a b), (Rle_dec a b); lra.
Qed.

End EigenFacts.

(** ** Feature: the early exits and [push] *)

Module FeatureFacts.

Import EigenFacts Feature.

(** Invariant of the planar loop: the running minimum and maximum stay
    inside [[0, PI/2]], so the final test against [PI] cannot fire. *)
Lemma checkPlanar_loop_no_fail (v cross_ : Vector3d) (rest : list Vector3d) :
  forall angle_min angle_max,
    0 <= angle_min <= PI / 2 -> 0 <= angle_max <= PI / 2 ->
    checkPlanar_loop v cross_ rest angle_min angle_max = PLANAR_SUCCESS \/
    checkPlanar_loop v cross_ rest angle_min angle_max = NOT_PLANAR.
Proof.
  induction rest as [| itr rest IH]; intros amin amax Hmin Hmax; simpl.
  - left. destruct (Rgt_dec (amax - amin) PI) as [Hgt | _]; [| reflexivity].
    pose proof PI_RGT_0. exfalso. lra.
  - destruct (Req_dec_T _ 1) as [_ | _]; [| right; reflexivity].
    pose proof (asin_norm_range (cross itr v)) as Hang.
    apply IH.
    + rewrite std_min_Rmin. unfold Rmin. destruct (Rle_dec _ _); lra.
    + rewrite std_max_Rmax. unfold Rmax. destruct (Rle_dec _ _); lra.
Qed.

Lemma checkPlanar_no_fail (f : t) (v : Vector3d) :
  checkPlanar f v = PLANAR_SUCCESS \/ checkPlanar f v = NOT_PLANAR.
Proof.
  unfold checkPlanar. destruct (epsilons f) as [| itr [| e2 rest]].
  - right; reflexivity.
  - right; reflexivity.
  - pose proof (asin_norm_range (cross itr (normalized v))) as Hang.
    apply checkPlanar_loop_no_fail.
    + rewrite std_min_Rmin. unfold Rmin. destruct (Rle_dec _ _); lra.
    + rewrite std_max_Rmax. unfold Rmax. destruct (Rle_dec _ _); lra.
Qed.

(** C10. [checkPlanar] never returns [PLANAR_FAIL]: each angle is [asin] of
    a norm and lies in [[0, PI/2]], the spread is at most [PI/2], and the
    comparison [angle_max - angle_min > M_PI] is never true.  So
    [isCompatible] never answers [false] from its planar exit: the planar
    fast path accepts or defers to the general case. *)
Theorem checkPlanar_never_fails (f : t) (v : Vector3d) :
  (checkPlanar f v = PLANAR_SUCCESS \/ checkPlanar f v = NOT_PLANAR) /\
  isCompatible_exit f v <> (false, ExitPlanar).
Proof.
  split; [apply checkPlanar_no_fail |].
  unfold isCompatible_exit.
  destruct (Req_dec_T (norm v) 0); [discriminate |].
  destruct (epsilons f) as [| e1 [| e2 rest]] eqn:Heps; try discriminate.
  destruct (existsb _ _); [discriminate |].
  destruct (checkPlanar_no_fail f (vdiv v (norm v))) as [H | H];
    rewrite H; discriminate.
Qed.

(** The sizes 0 and 1, and the zero vector. *)

Lemma isCompatible_zero (f : t) : isCompatible f zero = false.
Proof.
  unfold isCompatible, isCompatible_exit. rewrite norm_zero.
  destruct (Req_dec_T 0 0) as [_ | H]; [reflexivity | contradiction].
Qed.

Lemma isCompatible_empty (f : t) (e : Vector3d) :
  epsilons f = [] -> e <> zero -> isCompatible f e = true.
Proof.
  intros Hf He. unfold isCompatible, isCompatible_exit. rewrite Hf.
  destruct (Req_dec_T (norm e) 0) as [H | _]; [| reflexivity].
  exfalso. exact (norm_neq_0 e He H).
Qed.

Lemma isCompatible_single (f : t) (e front : Vector3d) :
  epsilons f = [front] -> e <> zero ->
  (isCompatible f e = true <-> dot (vdiv e (norm e)) front <> -1).
Proof.
  intros Hf He. unfold isCompatible, isCompatible_exit. rewrite Hf.
  destruct (Req_dec_T (norm e) 0) as [H | _].
  - exfalso. exact (norm_neq_0 e He H).
  - simpl. destruct (Req_dec_T _ (-1)) as [Hd | Hd]; split; intros H;
      congruence.
Qed.

(** For unit vectors a dot product of [-1] means exact antipodes. *)
Lemma dot_minus_one_antipode (a b : Vector3d) :
  squaredNorm a = 1 -> squaredNorm b = 1 ->
  (dot a b = -1 <-> a = vopp b).
Proof.
  destruct a as [ax ay az], b as [bx by_ bz].
  unfold squaredNorm, dot, vopp; simpl. intros Ha Hb. split.
  - intros Hd.
    assert (Hs : (ax + bx) * (ax + bx) + (ay + by_) * (ay + by_)
                 + (az + bz) * (az + bz) = 0) by nra.
    remember (ax + bx) as sx. remember (ay + by_) as sy.
    remember (az + bz) as sz.
    assert (sx = 0) by nra. assert (sy = 0) by nra. assert (sz = 0) by nra.
    f_equal; lra.
  - intros H. injection H as -> -> ->. nra.
Qed.


(** C7. With at least two stored epsilons, a candidate whose normalized
    form is one of them is accepted at the early exit of line 30: neither
    [checkPlanar] nor the pair search is consulted. *)
Theorem isCompatible_already_present (f : t) (e : Vector3d) :
  (2 <= length (epsilons f))%nat ->
  e <> zero ->
  In (vdiv e (norm e)) (epsilons f) ->
  isCompatible_exit f e = (true, ExitPresent).
Proof.
  intros Hlen He Hin. unfold isCompatible_exit.
  destruct (Req_dec_T (norm e) 0) as [H | _].
  - exfalso. exact (norm_neq_0 e He H).
  - destruct (epsilons f) as [| e1 [| e2 rest]] eqn:Heps.
    + simpl in Hlen; lia.
    + simpl in Hlen; lia.
    + apply existsb_veqb_In in Hin. rewrite Hin. reflexivity.
Qed.

(** When [isCompatible] accepts, [e] is not the zero vector and the
    [normalize()] of [push] is the division of [isCompatible]. *)
Lemma isCompatible_true_nonzero (f : t) (e : Vector3d) :
  isCompatible f e = true -> norm e <> 0.
Proof.
  unfold isCompatible, isCompatible_exit.
  destruct (Req_dec_T (norm e) 0) as [H | H]; [discriminate | intros _; exact H].
Qed.

(** C3. When [isCompatible(e)] holds, [push] returns [true], puts the
    choice at the front of [choices], and appends the normalized [e] to
    [epsilons] unless it is already there; when it does not hold, [push]
    returns [false] and the feature is left as it was. *)
Theorem push_spec (f : t) (e : Vector3d) (c : Choice) :
  (isCompatible f e = true ->
     fst (push f e c) = true /\
     choices (snd (push f e c)) = c :: choices f /\
     (In (normalized e) (epsilons f) ->
        epsilons (snd (push f e c)) = epsilons f) /\
     (~ In (normalized e) (epsilons f) ->
        epsilons (snd (push f e c)) = epsilons f ++ [normalized e])) /\
  (isCompatible f e = false -> push f e c = (false, f)).
Proof.
  unfold push. split; intros H; rewrite H; [| reflexivity].
  destruct (existsb (veqb (normalized e)) (epsilons f)) eqn:Hex; simpl.
  - apply existsb_veqb_In in Hex. repeat split; tauto.
  - assert (Hn : ~ In (normalized e) (epsilons f)).
    { intros Hin. apply existsb_veqb_In in Hin. congruence. }
    repeat split; tauto.
Qed.

End FeatureFacts.

(** ** Feature: what the planar test and the pair search compute *)

Module FeatureSearch.

Import EigenFacts Feature FeatureSpec.

(** Lagrange's identity. *)
Lemma lagrange (c k : Vector3d) :
  squaredNorm (cross c k) = squaredNorm c * squaredNorm k - dot c k * dot c k.
Proof. unfold squaredNorm, dot, cross; simpl. ring. Qed.

Lemma squaredNorm_zero : squaredNorm zero = 0.
Proof. unfold squaredNorm, dot, zero; simpl. ring. Qed.

Lemma dot_zero_l (a : Vector3d) : dot zero a = 0.
Proof. unfold dot, zero; simpl. ring. Qed.

Lemma dot_zero_r (a : Vector3d) : dot a zero = 0.
Proof. unfold dot, zero; simpl. ring. Qed.

Lemma norm_pos_nonzero (a : Vector3d) : a <> zero -> 0 < norm a.
Proof.
  intros Ha. pose proof (norm_nonneg a). pose proof (norm_neq_0 a Ha). lra.
Qed.

Lemma dot_vdiv (c k : Vector3d) (s r : R) :
  s <> 0 -> r <> 0 -> dot (vdiv c s) (vdiv k r) = dot c k / (s * r).
Proof. intros Hs Hr. unfold dot, vdiv; simpl. field. split; assumption. Qed.

(** The test [std::abs(c_.dot(cross_)) != 1] of [checkPlanar] lets through
    exactly the colinear pairs. *)
Lemma abs_dot_normalized_1 (c k : Vector3d) :
  Rabs (dot (normalized c) (normalized k)) = 1 <-> colinear c k.
Proof.
  unfold colinear. split.
  - intros H.
    assert (Hc : c <> zero).
    { intros ->. rewrite normalized_zero, dot_zero_l, Rabs_R0 in H. lra. }
    assert (Hk : k <> zero).
    { intros ->. rewrite normalized_zero, dot_zero_r, Rabs_R0 in H. lra. }
    split; [exact Hc |]. split; [exact Hk |].
    pose proof (norm_pos_nonzero c Hc) as Hnc.
    pose proof (norm_pos_nonzero k Hk) as Hnk.
    rewrite !normalized_vdiv, dot_vdiv in H by lra.
    apply squaredNorm_zero_inv. rewrite lagrange.
    rewrite <- (norm_sqr c), <- (norm_sqr k).
    assert (Hp : 0 < norm c * norm k) by nra.
    unfold Rdiv in H. rewrite Rabs_mult in H.
    rewrite (Rabs_pos_eq (/ (norm c * norm k))) in H
      by (left; apply Rinv_0_lt_compat, Hp).
    assert (Habs : Rabs (dot c k) = norm c * norm k).
    { apply (Rmult_eq_reg_r (/ (norm c * norm k)));
        [| apply Rinv_neq_0_compat; lra].
      rewrite H. rewrite Rinv_r; lra. }
    assert (Hsq : dot c k * dot c k = Rabs (dot c k) * Rabs (dot c k)).
    { unfold Rabs. destruct (Rcase_abs _); ring. }
    rewrite Hsq, Habs. ring.
  - intros (Hc & Hk & Hx).
    pose proof (norm_pos_nonzero c Hc) as Hnc.
    pose proof (norm_pos_nonzero k Hk) as Hnk.
    rewrite !normalized_vdiv, dot_vdiv by lra.
    assert (Hp : 0 < norm c * norm k) by nra.
    pose proof (lagrange c k) as HL. rewrite Hx, squaredNorm_zero in HL.
    rewrite <- (norm_sqr c), <- (norm_sqr k) in HL.
    unfold Rdiv. rewrite Rabs_mult.
    rewrite (Rabs_pos_eq (/ (norm c * norm k)))
      by (left; apply Rinv_0_lt_compat, Hp).
    assert (Habs : Rabs (dot c k) = norm c * norm k).
    { unfold Rabs. destruct (Rcase_abs _); nra. }
    rewrite Habs. apply Rinv_r. lra.
Qed.

(** The planar loop answers [PLANAR_SUCCESS] exactly when every remaining
    cross product is colinear with the first one; the angles play no part
    in the answer. *)
Lemma checkPlanar_loop_success (v k : Vector3d) (rest : list Vector3d) :
  forall angle_min angle_max,
    0 <= angle_min <= PI / 2 -> 0 <= angle_max <= PI / 2 ->
    (checkPlanar_loop v (normalized k) rest angle_min angle_max
       = PLANAR_SUCCESS
     <-> Forall (fun itr => colinear (cross itr v) k) rest).
Proof.
  induction rest as [| itr rest IH]; intros amin amax Hmin Hmax; simpl.
  - destruct (Rgt_dec (amax - amin) PI) as [Hgt | _].
    + pose proof PI_RGT_0. exfalso. lra.
    + split; [constructor | reflexivity].
  - pose proof (asin_norm_range (cross itr v)) as Hang.
    destruct (Req_dec_T _ 1) as [H1 | H1].
    + apply abs_dot_normalized_1 in H1. rewrite IH.
      * split; [intros HF; constructor; assumption |
                intros HF; inversion HF; assumption].
      * rewrite std_min_Rmin. unfold Rmin. destruct (Rle_dec _ _); lra.
      * rewrite std_max_Rmax. unfold Rmax. destruct (Rle_dec _ _); lra.
    + split; [discriminate |].
      intros HF. inversion HF as [| ? ? Hc _]; subst.
      apply abs_dot_normalized_1 in Hc. contradiction.
Qed.

Lemma checkPlanar_success_iff (f : t) (v first second : Vector3d)
    (rest : list Vector3d) :
  epsilons f = first :: second :: rest ->
  squaredNorm v = 1 ->
  (checkPlanar f v = PLANAR_SUCCESS <->
   Forall (fun itr => colinear (cross itr v) (cross first v))
          (second :: rest)).
Proof.
  intros Hf Hv. unfold checkPlanar. rewrite Hf.
  rewrite (normalized_unit v Hv).
  pose proof (asin_norm_range (cross first v)) as Hang.
  apply checkPlanar_loop_success.
  - rewrite std_min_Rmin. unfold Rmin. destruct (Rle_dec _ _); lra.
  - rewrite std_max_Rmax. unfold Rmax. destruct (Rle_dec _ _); lra.
Qed.

Lemma checkPlanar_not_planar_iff (f : t) (v first second : Vector3d)
    (rest : list Vector3d) :
  epsilons f = first :: second :: rest ->
  squaredNorm v = 1 ->
  (checkPlanar f v = NOT_PLANAR <->
   Exists (fun itr => ~ colinear (cross itr v) (cross first v))
          (second :: rest)).
Proof.
  intros Hf Hv.
  pose proof (checkPlanar_success_iff f v first second rest Hf Hv) as HS.
  assert (Hdec : forall x, colinear (cross x v) (cross first v) \/
                           ~ colinear (cross x v) (cross first v)).
  { intros x. unfold colinear.
    destruct (veq_dec (cross x v) zero), (veq_dec (cross first v) zero),
      (veq_dec (cross (cross x v) (cross first v)) zero); tauto. }
  rewrite (Exists_Forall_neg _ _ Hdec), <- HS.
  destruct (FeatureFacts.checkPlanar_no_fail f v) as [H | H]; rewrite H.
  - split; [discriminate | intros Hn; exfalso; apply Hn; reflexivity].
  - split; [discriminate | reflexivity].
Qed.

(** *** The pair search *)

Lemma c_loop_stopped (nrm : Vector3d) (a b : nat)
    (cs : list (nat * Vector3d)) (s : Z) :
  c_loop nrm a b cs (s, false) = (s, false).
Proof. destruct cs as [| [ci c] cs]; reflexivity. Qed.

(** The innermost loop leaves [passed] set exactly when the vectors at the
    other positions are all strictly on one side, the side already
    recorded in [sign] if there is one. *)
Lemma c_loop_passed_iff (nrm : Vector3d) (a b : nat)
    (cs : list (nat * Vector3d)) :
  forall s : Z,
    snd (c_loop nrm a b cs (s, true)) = true <->
    ((s <= 0)%Z /\
     forall ci c, In (ci, c) cs -> ci <> a -> ci <> b -> dot nrm c < 0) \/
    ((0 <= s)%Z /\
     forall ci c, In (ci, c) cs -> ci <> a -> ci <> b -> 0 < dot nrm c).
Proof.
  induction cs as [| [ci c] cs IH]; intros s; simpl.
  - split; [intros _ | reflexivity].
    destruct (Z_le_gt_dec s 0); [left | right]; split;
      try lia; intros ? ? [].
  - destruct (Nat.eqb a ci || Nat.eqb b ci) eqn:Hskip.
    + rewrite IH. apply orb_true_iff in Hskip.
      assert (Hci : ci = a \/ ci = b).
      { destruct Hskip as [H | H]; apply Nat.eqb_eq in H; auto. }
      split; (intros [[Hs H] | [Hs H]]; [left | right]); split; try exact Hs.
      * intros ci' c' [Heq | Hin] Ha Hb;
          [injection Heq as <- <-; tauto | eauto].
      * intros ci' c' [Heq | Hin] Ha Hb;
          [injection Heq as <- <-; tauto | eauto].
      * intros ci' c' Hin. apply H. right; exact Hin.
      * intros ci' c' Hin. apply H. right; exact Hin.
    + apply orb_false_iff in Hskip. destruct Hskip as [Ha Hb].
      apply Nat.eqb_neq in Ha, Hb.
      unfold sign_step; simpl.
      destruct (Rlt_dec (dot nrm c) 0) as [Hneg | Hneg].
      * destruct (Z.leb_spec s 0) as [Hs | Hs].
        -- rewrite IH. split.
           ++ intros [[_ H] | [Hs' _]]; [| lia]. left. split; [exact Hs |].
              intros ci' c' [Heq | Hin] Ha' Hb';
                [injection Heq as <- <-; exact Hneg | eauto].
           ++ intros [[_ H] | [_ H]].
              ** left. split; [lia |]. intros ci' c' Hin. apply H.
                 right; exact Hin.
              ** exfalso.
                 assert (0 < dot nrm c)
                   by (apply (H ci c); [left; reflexivity | auto | auto]).
                 lra.
        -- rewrite c_loop_stopped. simpl. split; [discriminate |].
           intros [[Hs' _] | [_ H]]; [lia |]. exfalso.
           assert (0 < dot nrm c)
             by (apply (H ci c); [left; reflexivity | auto | auto]).
           lra.
      * destruct (Rgt_dec (dot nrm c) 0) as [Hpos | Hpos].
        -- destruct (Z.geb_spec s 0) as [Hs | Hs].
           ++ rewrite IH. split.
              ** intros [[Hs' _] | [_ H]]; [lia |]. right.
                 split; [lia |].
                 intros ci' c' [Heq | Hin] Ha' Hb';
                   [injection Heq as <- <-; exact Hpos | eauto].
              ** intros [[_ H] | [_ H]].
                 --- exfalso.
                     assert (dot nrm c < 0)
                       by (apply (H ci c); [left; reflexivity | auto | auto]).
                     lra.
                 --- right. split; [lia |]. intros ci' c' Hin. apply H.
                     right; exact Hin.
           ++ rewrite c_loop_stopped. simpl. split; [discriminate |].
              intros [[_ H] | [Hs' _]]; [| lia]. exfalso.
              assert (dot nrm c < 0)
                by (apply (H ci c); [left; reflexivity | auto | auto]).
              lra.
        -- rewrite c_loop_stopped. simpl. split; [discriminate |].
           intros [[_ H] | [_ H]]; exfalso.
           ++ assert (dot nrm c < 0)
                by (apply (H ci c); [left; reflexivity | auto | auto]).
              lra.
           ++ assert (0 < dot nrm c)
                by (apply (H ci c); [left; reflexivity | auto | auto]).
              lra.
Qed.

Lemma b_loop_true_iff (es : list (nat * Vector3d)) (a : nat) (av : Vector3d)
    (bs : list (nat * Vector3d)) :
  b_loop es a av bs = true <->
  exists b bv, In (b, bv) bs /\ a <> b /\ dot av bv <> -1 /\
               snd (c_loop (cross av bv) a b es (0%Z, true)) = true.
Proof.
  induction bs as [| [b bv] bs IH]; simpl.
  - split; [discriminate | intros (? & ? & [] & _)].
  - destruct (Nat.eqb_spec a b) as [Hab | Hab]; simpl.
    + rewrite IH. split.
      * intros (b' & bv' & Hin & H). exists b', bv'. split; [right |]; tauto.
      * intros (b' & bv' & [Heq | Hin] & Hne & H).
        -- injection Heq as <- <-. contradiction.
        -- exists b', bv'. tauto.
    + destruct (Req_dec_T (dot av bv) (-1)) as [Hd | Hd].
      * rewrite IH. split.
        -- intros (b' & bv' & Hin & H). exists b', bv'.
           split; [right |]; tauto.
        -- intros (b' & bv' & [Heq | Hin] & Hne & Hd' & H).
           ++ injection Heq as <- <-. contradiction.
           ++ exists b', bv'. tauto.
      * destruct (snd (c_loop (cross av bv) a b es (0%Z, true))) eqn:Hc.
        -- split; [intros _ | reflexivity].
           exists b, bv. split; [left; reflexivity | tauto].
        -- rewrite IH. split.
           ++ intros (b' & bv' & Hin & H). exists b', bv'.
              split; [right |]; tauto.
           ++ intros (b' & bv' & [Heq | Hin] & Hne & Hd' & H).
              ** injection Heq as <- <-. congruence.
              ** exists b', bv'. tauto.
Qed.

Lemma a_loop_true_iff (es as_ : list (nat * Vector3d)) :
  a_loop es as_ = true <->
  exists a av, In (a, av) as_ /\ b_loop es a av es = true.
Proof.
  induction as_ as [| [a av] as_ IH]; simpl.
  - split; [discriminate | intros (? & ? & [] & _)].
  - destruct (b_loop es a av es) eqn:Hb.
    + split; [intros _ | reflexivity].
      exists a, av. split; [left; reflexivity | exact Hb].
    + rewrite IH. split.
      * intros (a' & av' & Hin & H). exists a', av'. split; [right |]; tauto.
      * intros (a' & av' & [Heq | Hin] & H).
        -- injection Heq as <- <-. congruence.
        -- exists a', av'. tauto.
Qed.

Lemma in_combine_seq (l : list Vector3d) :
  forall (s i : nat) (v : Vector3d),
    In (i, v) (combine (seq s (length l)) l) <->
    (s <= i)%nat /\ nth_error l (i - s) = Some v.
Proof.
  induction l as [| x l IH]; intros s i v; simpl.
  - split; [intros [] |]. intros [_ H]. destruct (i - s)%nat; discriminate.
  - rewrite IH. split.
    + intros [Heq | [Hle Hnth]].
      * injection Heq as <- <-. split; [lia |].
        rewrite Nat.sub_diag. reflexivity.
      * split; [lia |].
        replace (i - s)%nat with (S (i - S s)) by lia. exact Hnth.
    + intros [Hle Hnth]. destruct (i - s)%nat as [| n] eqn:Hd.
      * left. injection Hnth as <-. f_equal. lia.
      * right. split; [lia |].
        replace (i - S s)%nat with n by lia. exact Hnth.
Qed.

Lemma in_indexed (es : list Vector3d) (i : nat) (v : Vector3d) :
  In (i, v) (indexed es) <-> nth_error es i = Some v.
Proof.
  unfold indexed. rewrite in_combine_seq, Nat.sub_0_r.
  split; [tauto | intros H; split; [lia | exact H]].
Qed.

(** The search of lines 44-89 returns [true] exactly when some ordered
    pair of positions witnesses, in the sense of the specification. *)
Lemma a_loop_indexed_iff (es : list Vector3d) :
  a_loop (indexed es) (indexed es) = true <->
  exists i j, pair_witness es i j.
Proof.
  rewrite a_loop_true_iff. unfold pair_witness. split.
  - intros (a & av & Ha & Hb). apply b_loop_true_iff in Hb.
    destruct Hb as (b & bv & Hbin & Hab & Hd & Hc).
    apply c_loop_passed_iff in Hc.
    apply in_indexed in Ha, Hbin.
    exists a, b. split; [exact Hab |]. exists av, bv.
    repeat split; try assumption.
    destruct Hc as [[_ H] | [_ H]]; [left | right];
      intros k c Hka Hkb Hk; apply (H k c); auto; apply in_indexed, Hk.
  - intros (i & j & Hij & a & b & Ha & Hb & Hd & Hs).
    exists i, a. split; [apply in_indexed, Ha |].
    apply b_loop_true_iff. exists j, b.
    split; [apply in_indexed, Hb |]. split; [exact Hij |].
    split; [exact Hd |].
    apply c_loop_passed_iff.
    destruct Hs as [H | H]; [left | right]; (split; [lia |]);
      intros k c Hin Hka Hkb; apply (H k c); auto; apply in_indexed, Hin.
Qed.

Lemma general_case_iff (f : t) (e : Vector3d) :
  general_case f e = true <-> exists i j, pair_witness (epsilons f ++ [e]) i j.
Proof. unfold general_case. apply a_loop_indexed_iff. Qed.

(** *** [isCompatible] on unit candidates *)

(** On a unit candidate the normalization of lines 7-14 changes nothing. *)
Lemma isCompatible_exit_unit (f : t) (e : Vector3d) :
  squaredNorm e = 1 ->
  isCompatible_exit f e =
    match epsilons f with
    | [] => (true, ExitEmpty)
    | [front] =>
        ((if Req_dec_T (dot e front) (-1) then false else true), ExitSingle)
    | _ =>
        if existsb (veqb e) (epsilons f) then (true, ExitPresent)
        else
          match checkPlanar f e with
          | PLANAR_FAIL => (false, ExitPlanar)
          | PLANAR_SUCCESS => (true, ExitPlanar)
          | NOT_PLANAR => (general_case f e, ExitGeneral)
          end
    end.
Proof.
  intros He. unfold isCompatible_exit.
  assert (Hn : norm e = 1).
  { apply norm_of_square; [lra | rewrite He; ring]. }
  rewrite Hn, vdiv_1.
  destruct (Req_dec_T 1 0) as [H | _]; [lra | reflexivity].
Qed.

(** [isCompatible] only looks at the direction of its argument. *)
Lemma isCompatible_exit_normalize (f : t) (e : Vector3d) :
  norm e <> 0 ->
  isCompatible_exit f e = isCompatible_exit f (vdiv e (norm e)).
Proof.
  intros Hn.
  rewrite (isCompatible_exit_unit f (vdiv e (norm e)))
    by (apply unit_vdiv_norm, Hn).
  unfold isCompatible_exit.
  destruct (Req_dec_T (norm e) 0) as [H | _]; [contradiction | reflexivity].
Qed.

(** The planar exit: with at least two epsilons and a unit candidate that
    is not stored yet, colinear cross products mean acceptance, whatever
    the angles are. *)
Lemma isCompatible_planar_accepts (f : t) (e first second : Vector3d)
    (rest : list Vector3d) :
  epsilons f = first :: second :: rest ->
  squaredNorm e = 1 ->
  ~ In e (epsilons f) ->
  Forall (fun itr => colinear (cross itr e) (cross first e))
         (second :: rest) ->
  isCompatible_exit f e = (true, ExitPlanar).
Proof.
  intros Hf He Hin Hall.
  rewrite (isCompatible_exit_unit f e He).
  destruct (existsb (veqb e) (epsilons f)) eqn:Hex.
  - apply existsb_veqb_In in Hex. contradiction.
  - apply (checkPlanar_success_iff f e first second rest Hf He) in Hall.
    rewrite Hall, Hf. reflexivity.
Qed.

(** [isCompatible] reads nothing of the feature but [epsilons]. *)
Lemma isCompatible_exit_ext (f g : t) (e : Vector3d) :
  epsilons f = epsilons g -> isCompatible_exit f e = isCompatible_exit g e.
Proof.
  intros H. unfold isCompatible_exit, checkPlanar, general_case.
  rewrite H. reflexivity.
Qed.

(** The general exit: when the cross products are not all colinear, the
    answer is that of the pair search. *)
Lemma isCompatible_general (f : t) (e first second : Vector3d)
    (rest : list Vector3d) :
  epsilons f = first :: second :: rest ->
  squaredNorm e = 1 ->
  ~ In e (epsilons f) ->
  Exists (fun itr => ~ colinear (cross itr e) (cross first e))
         (second :: rest) ->
  isCompatible_exit f e = (general_case f e, ExitGeneral).
Proof.
  intros Hf He Hin Hex.
  rewrite (isCompatible_exit_unit f e He).
  destruct (existsb (veqb e) (epsilons f)) eqn:Hpres.
  - apply existsb_veqb_In in Hpres. contradiction.
  - apply (checkPlanar_not_planar_iff f e first second rest Hf He) in Hex.
    rewrite Hex, Hf. reflexivity.
Qed.

(** In the general case [isCompatible] answers [true] exactly when some
    ordered pair of positions in [epsilons + {e}] witnesses. *)
Lemma isCompatible_general_iff (f : t) (e first second : Vector3d)
    (rest : list Vector3d) :
  epsilons f = first :: second :: rest ->
  squaredNorm e = 1 ->
  ~ In e (epsilons f) ->
  Exists (fun itr => ~ colinear (cross itr e) (cross first e))
         (second :: rest) ->
  (isCompatible f e = true <->
   exists i j, pair_witness (epsilons f ++ [e]) i j).
Proof.
  intros Hf He Hin Hex. unfold isCompatible.
  rewrite (isCompatible_general f e first second rest Hf He Hin Hex).
  simpl. apply general_case_iff.
Qed.

(** A successful [push] of a unit vector that is not stored yet. *)
Lemma push_new (f : t) (v : Vector3d) (c : Choice) :
  isCompatible f v = true -> squaredNorm v = 1 -> ~ In v (epsilons f) ->
  push f v c
  = (true, mkFeature (epsilons f ++ [v]) (c :: choices f)
                     (map_assign (_epsilons f) (id c) v)).
Proof.
  intros Hacc Hv Hin. unfold push. rewrite Hacc.
  rewrite (normalized_unit v Hv).
  destruct (existsb (veqb v) (epsilons f)) eqn:Hex; [| reflexivity].
  apply existsb_veqb_In in Hex. contradiction.
Qed.

End FeatureSearch.

(** ** Feature: the scenarios of the specification *)

Module FeatureScenarios.

Import EigenFacts Feature FeatureSpec FeatureSearch Scenarios.

Lemma inv_sqrt2_pos : 0 < / sqrt 2.
Proof. apply Rinv_0_lt_compat, Rlt_sqrt2_0. Qed.

Lemma inv_sqrt2_sqr : / sqrt 2 * / sqrt 2 = / 2.
Proof.
  rewrite <- Rinv_mult. rewrite sqrt_def by lra. reflexivity.
Qed.

Lemma sqrt3_sqr : sqrt 3 * sqrt 3 = 3.
Proof. apply sqrt_def; lra. Qed.

Lemma sqrt3_gt_1 : 1 < sqrt 3.
Proof.
  pose proof Rlt_sqrt3_0. pose proof sqrt3_sqr. nra.
Qed.

Lemma polar_unit (theta : R) : squaredNorm (polar theta) = 1.
Proof.
  unfold squaredNorm, dot, polar; simpl.
  pose proof (sin2_cos2 theta) as H. unfold Rsqr in H. lra.
Qed.

Lemma polar_0 : polar 0 = Vec3 1 0 0.
Proof. unfold polar. rewrite cos_0, sin_0. reflexivity. Qed.

Lemma polar_PI3 : polar (PI / 3) = Vec3 (1 / 2) (sqrt 3 / 2) 0.
Proof. unfold polar. rewrite cos_PI3, sin_PI3. reflexivity. Qed.

Lemma polar_2PI3 : polar (2 * (PI / 3)) = Vec3 (-1 / 2) (sqrt 3 / 2) 0.
Proof. unfold polar. rewrite cos_2PI3, sin_2PI3. reflexivity. Qed.

Lemma polar_PI : polar PI = Vec3 (-1) 0 0.
Proof. unfold polar. rewrite cos_PI, sin_PI. reflexivity. Qed.

Lemma polar_5PI4 :
  polar (5 * (PI / 4)) = Vec3 (-1 / sqrt 2) (-1 / sqrt 2) 0.
Proof. unfold polar. rewrite cos_5PI4, sin_5PI4. reflexivity. Qed.

Lemma antidiagonal_polar :
  vdiv (Vec3 (-1) (-1) 0) (sqrt 2) = polar (5 * (PI / 4)).
Proof.
  rewrite polar_5PI4. unfold vdiv; simpl. f_equal.
  unfold Rdiv. ring.
Qed.

(** Equality of vectors with known coefficients is settled coefficient by
    coefficient. *)
Ltac vec_neq :=
  let H := fresh in
  intros H; injection H; intros;
  pose proof inv_sqrt2_pos; pose proof Rlt_sqrt3_0; pose proof sqrt3_gt_1;
  unfold Rdiv in *; first [lra | nra].

Ltac vec_eq := unfold cross, zero; simpl; f_equal; unfold Rdiv; ring.

(** C2, the scenario "epsilons = {(1,0,0), (0,1,0)}, candidate
    (-1,-1,0)/sqrt 2 -> incompatible".  The three vectors lie in the plane
    [z = 0], so [isCompatible] leaves through the planar exit, and that
    exit accepts: the answer of the code is [true], although no half-space
    holds the three vectors. *)
Theorem xy_pair_antidiagonal :
  isCompatible_exit xy_pair (vdiv (Vec3 (-1) (-1) 0) (sqrt 2))
    = (true, ExitPlanar) /\
  ~ half_space (epsilons xy_pair ++ [vdiv (Vec3 (-1) (-1) 0) (sqrt 2)]).
Proof.
  split.
  - apply (isCompatible_planar_accepts _ _ (Vec3 1 0 0) (Vec3 0 1 0) []).
    + reflexivity.
    + rewrite antidiagonal_polar. apply polar_unit.
    + simpl. intros [H | [H | []]]; revert H; unfold vdiv; simpl; vec_neq.
    + constructor; [| constructor]. unfold colinear.
      split; [unfold cross, vdiv, zero; simpl; vec_neq |].
      split; [unfold cross, vdiv, zero; simpl; vec_neq |].
      unfold vdiv; vec_eq.
  - intros [n Hn]. simpl in Hn.
    pose proof (Hn (Vec3 1 0 0) (or_introl eq_refl)) as H1.
    pose proof (Hn (Vec3 0 1 0) (or_intror (or_introl eq_refl))) as H2.
    pose proof (Hn _ (or_intror (or_intror (or_introl eq_refl)))) as H3.
    unfold dot, vdiv in *; simpl in *. unfold Rdiv in *.
    pose proof inv_sqrt2_pos. nra.
Qed.

(** The other half of that scenario: (1,1,0)/sqrt 2 is accepted, also at
    the planar exit. *)
Lemma xy_pair_diagonal :
  isCompatible_exit xy_pair (vdiv (Vec3 1 1 0) (sqrt 2)) = (true, ExitPlanar).
Proof.
  apply (isCompatible_planar_accepts _ _ (Vec3 1 0 0) (Vec3 0 1 0) []).
  - reflexivity.
  - unfold squaredNorm, dot, vdiv; simpl. unfold Rdiv.
    pose proof inv_sqrt2_sqr. nra.
  - simpl. intros [H | [H | []]]; revert H; unfold vdiv; simpl; vec_neq.
  - constructor; [| constructor]. unfold colinear.
    split; [unfold cross, vdiv, zero; simpl; vec_neq |].
    split; [unfold cross, vdiv, zero; simpl; vec_neq |].
    unfold vdiv; vec_eq.
Qed.

(** Refuting a pair witness on a concrete list: the side condition is
    instantiated at every position. *)
Ltac use_side H :=
  try (pose proof (H 0%nat _ ltac:(lia) ltac:(lia) eq_refl));
  try (pose proof (H 1%nat _ ltac:(lia) ltac:(lia) eq_refl));
  try (pose proof (H 2%nat _ ltac:(lia) ltac:(lia) eq_refl));
  try (pose proof (H 3%nat _ ltac:(lia) ltac:(lia) eq_refl));
  try (pose proof (H 4%nat _ ltac:(lia) ltac:(lia) eq_refl));
  try (pose proof (H 5%nat _ ltac:(lia) ltac:(lia) eq_refl));
  try (pose proof (H 6%nat _ ltac:(lia) ltac:(lia) eq_refl)).

Ltac refute_side H :=
  use_side H; clear H;
  unfold dot, cross in *; simpl in *; unfold Rdiv in *;
  pose proof Rlt_sqrt3_0; pose proof sqrt3_sqr;
  first [lra | nra].

Ltac refute_witness :=
  let i := fresh "i" in let j := fresh "j" in
  let a := fresh "a" in let b := fresh "b" in
  let Ha := fresh "Ha" in let Hb := fresh "Hb" in
  let Hs := fresh "Hs" in let H := fresh "H" in
  intros (i & j & _ & a & b & Ha & Hb & _ & Hs);
  do 7 (try (destruct i as [| i])); simpl in Ha;
    try discriminate Ha;
    try (destruct i; discriminate Ha);
  injection Ha as <-;
  (do 7 (try (destruct j as [| j])); simpl in Hb;
    try discriminate Hb;
    try (destruct j; discriminate Hb);
   injection Hb as <-;
   destruct Hs as [H | H]; refute_side H).

(** Checking a side condition on a concrete list. *)
Ltac check_side :=
  let k := fresh "k" in let c := fresh "c" in
  let Hk := fresh "Hk" in
  intros k c ? ? Hk;
  do 8 (try (destruct k as [| k])); simpl in Hk;
    try discriminate Hk; try lia;
    try (destruct k; discriminate Hk);
  injection Hk as <-; unfold dot, cross; simpl; lra.

Ltac not_stored :=
  let H := fresh in
  simpl; intros H;
  repeat (destruct H as [H | H]; [revert H; vec_neq |]); exact H.

(** *** The planar scenario of the specification *)

(** "adding (cos 2pi/3, sin 2pi/3, 0) compatible": the planar exit
    accepts. *)
Lemma planar_pair_accepts_2PI3 :
  isCompatible_exit planar_pair (polar (2 * (PI / 3))) = (true, ExitPlanar).
Proof.
  unfold planar_pair, with_epsilons.
  apply (isCompatible_planar_accepts _ _ (Vec3 1 0 0) (polar (PI / 3)) []).
  - reflexivity.
  - apply polar_unit.
  - rewrite polar_2PI3, polar_PI3. not_stored.
  - rewrite polar_2PI3, polar_PI3.
    constructor; [| constructor]. unfold colinear.
    split; [unfold cross, zero; simpl; vec_neq |].
    split; [unfold cross, zero; simpl; vec_neq |].
    vec_eq.
Qed.

(** "adding (-1, 0, 0) incompatible": the first cross product vanishes, so
    [checkPlanar] answers [NOT_PLANAR], and the pair search finds the three
    coplanar vectors on every candidate plane. *)
Lemma planar_pair_rejects_opposite :
  isCompatible_exit planar_pair (Vec3 (-1) 0 0) = (false, ExitGeneral).
Proof.
  unfold planar_pair, with_epsilons.
  rewrite (isCompatible_general _ _ (Vec3 1 0 0) (polar (PI / 3)) []).
  - f_equal. apply not_true_is_false. rewrite general_case_iff.
    simpl. rewrite polar_PI3. refute_witness.
  - reflexivity.
  - unfold squaredNorm, dot; simpl. ring.
  - rewrite polar_PI3. not_stored.
  - apply Exists_cons_hd. intros (_ & Hk & _). apply Hk. vec_eq.
Qed.

(** C1.  In the feature of the planar scenario, the candidate at angle
    [5 pi/4] lies in the common plane and the angles [0], [pi/3], [5 pi/4]
    spread over [5 pi/4 >= pi]; no half-space holds the three vectors.
    [isCompatible] accepts it at the planar exit. *)
Theorem planar_pair_accepts_wide_spread :
  isCompatible_exit planar_pair (polar (5 * (PI / 4))) = (true, ExitPlanar) /\
  PI <= 5 * (PI / 4) - 0 /\
  ~ half_space (epsilons planar_pair ++ [polar (5 * (PI / 4))]).
Proof.
  unfold planar_pair, with_epsilons. split; [| split].
  - apply (isCompatible_planar_accepts _ _ (Vec3 1 0 0) (polar (PI / 3)) []).
    + reflexivity.
    + apply polar_unit.
    + rewrite polar_5PI4, polar_PI3. not_stored.
    + rewrite polar_5PI4, polar_PI3.
      constructor; [| constructor]. unfold colinear.
      split; [unfold cross, zero; simpl; vec_neq |].
      split; [unfold cross, zero; simpl; vec_neq |].
      vec_eq.
  - pose proof PI_RGT_0. lra.
  - intros [n Hn]. simpl in Hn. rewrite polar_5PI4, polar_PI3 in Hn.
    pose proof (Hn _ (or_introl eq_refl)) as H1.
    pose proof (Hn _ (or_intror (or_introl eq_refl))) as H2.
    pose proof (Hn _ (or_intror (or_intror (or_introl eq_refl)))) as H3.
    unfold dot in *; simpl in *. unfold Rdiv in *.
    pose proof inv_sqrt2_pos. pose proof sqrt3_gt_1.
    assert (vx n + vy n < 0) by nra.
    nra.
Qed.

(** *** A cone whose faces each hold three of the vectors *)

Lemma in_face_xz_unit : squaredNorm in_face_xz = 1.
Proof. unfold squaredNorm, dot, in_face_xz; simpl. lra. Qed.

Lemma outside_unit : squaredNorm outside = 1.
Proof. unfold squaredNorm, dot, outside; simpl. lra. Qed.

(** With the five vectors stored, the sixth is rejected: each face of the
    cone holds three of the six vectors, and every other plane through two
    of them has vectors on both sides. *)
Lemma cone5_rejects_in_face :
  isCompatible_exit cone5 in_face_xz = (false, ExitGeneral).
Proof.
  unfold cone5, with_epsilons, in_face_xz.
  rewrite (isCompatible_general _ _ (Vec3 1 0 0) (Vec3 0 1 0)
             [Vec3 0 0 1; Vec3 (3/5) (4/5) 0; Vec3 0 (3/5) (4/5)]).
  - f_equal. apply not_true_is_false. rewrite general_case_iff.
    simpl. refute_witness.
  - reflexivity.
  - exact in_face_xz_unit.
  - not_stored.
  - apply Exists_cons_hd. intros (_ & _ & H). revert H.
    unfold cross, zero; simpl. vec_neq.
Qed.

(** The vector outside the cone is accepted: the plane through it and the
    z axis has the four other vectors strictly on one side. *)
Lemma cone5_accepts_outside :
  isCompatible_exit cone5 outside = (true, ExitGeneral).
Proof.
  unfold cone5, with_epsilons, outside.
  rewrite (isCompatible_general _ _ (Vec3 1 0 0) (Vec3 0 1 0)
             [Vec3 0 0 1; Vec3 (3/5) (4/5) 0; Vec3 0 (3/5) (4/5)]).
  - f_equal. rewrite general_case_iff. simpl.
    exists 5%nat, 2%nat. split; [lia |].
    exists (Vec3 (3/5) (-4/5) 0), (Vec3 0 0 1).
    split; [reflexivity |]. split; [reflexivity |].
    split; [unfold dot; simpl; lra |].
    left. check_side.
  - reflexivity.
  - exact outside_unit.
  - not_stored.
  - apply Exists_cons_tl, Exists_cons_hd. intros (_ & _ & H). revert H.
    unfold cross, zero; simpl. vec_neq.
Qed.

Lemma cone5_push_outside (c : Choice) :
  push cone5 outside c
  = (true, mkFeature (epsilons cone5 ++ [outside]) [c]
                     (map_assign no_map (id c) outside)).
Proof.
  unfold push, isCompatible. rewrite cone5_accepts_outside. cbn [fst].
  rewrite (normalized_unit _ outside_unit).
  assert (Hex : existsb (veqb outside) (epsilons cone5) = false).
  { apply not_true_is_false. rewrite existsb_veqb_In.
    unfold outside. not_stored. }
  rewrite Hex. reflexivity.
Qed.

(** Once the outside vector is stored, the sixth vector is accepted: the
    same plane now has all five other vectors strictly on one side. *)
Lemma cone6_accepts_in_face (c : Choice) :
  isCompatible_exit (snd (push cone5 outside c)) in_face_xz
  = (true, ExitGeneral).
Proof.
  rewrite cone5_push_outside. simpl. unfold outside, in_face_xz.
  rewrite (isCompatible_general _ _ (Vec3 1 0 0) (Vec3 0 1 0)
             [Vec3 0 0 1; Vec3 (3/5) (4/5) 0; Vec3 0 (3/5) (4/5);
              Vec3 (3/5) (-4/5) 0]).
  - f_equal. rewrite general_case_iff. simpl.
    exists 5%nat, 2%nat. split; [lia |].
    exists (Vec3 (3/5) (-4/5) 0), (Vec3 0 0 1).
    split; [reflexivity |]. split; [reflexivity |].
    split; [unfold dot; simpl; lra |].
    left. check_side.
  - reflexivity.
  - exact in_face_xz_unit.
  - not_stored.
  - apply Exists_cons_hd. intros (_ & _ & H). revert H.
    unfold cross, zero; simpl. vec_neq.
Qed.

(** [cone5] is what five calls of [push] on an empty feature build. *)

Ltac unit_vec := unfold squaredNorm, dot; simpl; lra.

Lemma accepts_axis_y (f : t) :
  epsilons f = [Vec3 1 0 0] -> isCompatible f (Vec3 0 1 0) = true.
Proof.
  intros Hf. unfold isCompatible.
  rewrite isCompatible_exit_unit by unit_vec. rewrite Hf.
  destruct (Req_dec_T _ (-1)) as [H | _]; [| reflexivity].
  unfold dot in H; simpl in H. lra.
Qed.

Lemma accepts_axis_z (f : t) :
  epsilons f = [Vec3 1 0 0; Vec3 0 1 0] ->
  isCompatible f (Vec3 0 0 1) = true.
Proof.
  intros Hf.
  apply (isCompatible_general_iff f _ _ _ _ Hf); rewrite ?Hf.
  - unit_vec.
  - not_stored.
  - apply Exists_cons_hd. intros (_ & _ & H). revert H.
    unfold cross, zero; simpl. vec_neq.
  - exists 0%nat, 1%nat. split; [lia |].
    exists (Vec3 1 0 0), (Vec3 0 1 0).
    split; [reflexivity |]. split; [reflexivity |].
    split; [unfold dot; simpl; lra |].
    right. check_side.
Qed.

Lemma accepts_in_face_xy (f : t) :
  epsilons f = [Vec3 1 0 0; Vec3 0 1 0; Vec3 0 0 1] ->
  isCompatible f (Vec3 (3/5) (4/5) 0) = true.
Proof.
  intros Hf.
  apply (isCompatible_general_iff f _ _ _ _ Hf); rewrite ?Hf.
  - unit_vec.
  - not_stored.
  - apply Exists_cons_tl, Exists_cons_hd. intros (_ & _ & H). revert H.
    unfold cross, zero; simpl. vec_neq.
  - exists 0%nat, 2%nat. split; [lia |].
    exists (Vec3 1 0 0), (Vec3 0 0 1).
    split; [reflexivity |]. split; [reflexivity |].
    split; [unfold dot; simpl; lra |].
    left. check_side.
Qed.

Lemma accepts_in_face_yz (f : t) :
  epsilons f = [Vec3 1 0 0; Vec3 0 1 0; Vec3 0 0 1; Vec3 (3/5) (4/5) 0] ->
  isCompatible f (Vec3 0 (3/5) (4/5)) = true.
Proof.
  intros Hf.
  apply (isCompatible_general_iff f _ _ _ _ Hf); rewrite ?Hf.
  - unit_vec.
  - not_stored.
  - apply Exists_cons_hd. intros (_ & _ & H). revert H.
    unfold cross, zero; simpl. vec_neq.
  - exists 0%nat, 2%nat. split; [lia |].
    exists (Vec3 1 0 0), (Vec3 0 0 1).
    split; [reflexivity |]. split; [reflexivity |].
    split; [unfold dot; simpl; lra |].
    left. check_side.
Qed.

Lemma cone5_pushed :
  fst (push_all empty (epsilons cone5)) = true /\
  epsilons (snd (push_all empty (epsilons cone5))) = epsilons cone5.
Proof.
  unfold cone5, with_epsilons, empty. cbn [epsilons push_all].
  rewrite push_new;
    [| apply FeatureFacts.isCompatible_empty; [reflexivity | unfold zero; vec_neq]
     | unit_vec | intros []].
  cbn [fst snd epsilons choices length app].
  rewrite push_new;
    [| apply accepts_axis_y; reflexivity | unit_vec | not_stored].
  cbn [fst snd epsilons choices length app].
  rewrite push_new;
    [| apply accepts_axis_z; reflexivity | unit_vec | not_stored].
  cbn [fst snd epsilons choices length app].
  rewrite push_new;
    [| apply accepts_in_face_xy; reflexivity | unit_vec | not_stored].
  cbn [fst snd epsilons choices length app].
  rewrite push_new;
    [| apply accepts_in_face_yz; reflexivity | unit_vec | not_stored].
  cbn [fst snd epsilons choices length app].
  split; reflexivity.
Qed.

Lemma xy_pair_pushed :
  fst (push_all empty (epsilons xy_pair)) = true /\
  epsilons (snd (push_all empty (epsilons xy_pair))) = epsilons xy_pair.
Proof.
  unfold xy_pair, with_epsilons, empty. cbn [epsilons push_all].
  rewrite push_new;
    [| apply FeatureFacts.isCompatible_empty;
       [reflexivity | unfold zero; vec_neq]
     | unit_vec | intros []].
  cbn [fst snd epsilons choices length app].
  rewrite push_new;
    [| apply accepts_axis_y; reflexivity | unit_vec | not_stored].
  cbn [fst snd epsilons choices length app].
  split; reflexivity.
Qed.

Lemma planar_pair_pushed :
  fst (push_all empty (epsilons planar_pair)) = true /\
  epsilons (snd (push_all empty (epsilons planar_pair)))
  = epsilons planar_pair.
Proof.
  unfold planar_pair, with_epsilons, empty. cbn [epsilons push_all].
  rewrite push_new;
    [| apply FeatureFacts.isCompatible_empty;
       [reflexivity | unfold zero; vec_neq]
     | unit_vec | intros []].
  cbn [fst snd epsilons choices length app].
  rewrite push_new; [| | apply polar_unit | rewrite polar_PI3; not_stored].
  - cbn [fst snd epsilons choices length app]. split; reflexivity.
  - unfold isCompatible.
    rewrite isCompatible_exit_unit by apply polar_unit.
    cbn [epsilons]. rewrite polar_PI3.
    destruct (Req_dec_T _ (-1)) as [H | _]; [| reflexivity].
    unfold dot in H; simpl in H. lra.
Qed.


End FeatureScenarios.



(** ** Feature: acceptance and half-spaces *)

Module FeatureHalfSpace.

Import EigenFacts Feature FeatureSpec FeatureSearch.

Lemma dot_cross_l (a b : Vector3d) : dot (cross a b) a = 0.
Proof. unfold dot, cross; simpl. ring. Qed.

Lemma dot_cross_r (a b : Vector3d) : dot (cross a b) b = 0.
Proof. unfold dot, cross; simpl. ring. Qed.

Lemma dot_comm (a b : Vector3d) : dot a b = dot b a.
Proof. unfold dot. ring. Qed.

Lemma dot_vadd_vscale (n m c : Vector3d) (s : R) :
  dot (vadd n (vscale s m)) c = dot n c + s * dot m c.
Proof. unfold dot, vadd, vscale; simpl. ring. Qed.

Lemma dot_vopp_l (n c : Vector3d) : dot (vopp n) c = - dot n c.
Proof. unfold dot, vopp; simpl. ring. Qed.

(** Cauchy-Schwarz for unit vectors, the half that is needed. *)
Lemma unit_dot_lower (a b : Vector3d) :
  squaredNorm a = 1 -> squaredNorm b = 1 -> -1 <= dot a b.
Proof.
  destruct a as [ax ay az], b as [bx by_ bz].
  unfold squaredNorm, dot; simpl. intros Ha Hb.
  pose proof (Rle_0_sqr (ax + bx)). pose proof (Rle_0_sqr (ay + by_)).
  pose proof (Rle_0_sqr (az + bz)). unfold Rsqr in *. nra.
Qed.

(** Vectors strictly on the positive side of [n] stay there when [n] is
    tilted a little towards [m]. *)
Lemma small_tilt (n m : Vector3d) (l : list Vector3d) :
  exists t0, 0 < t0 /\
    forall s, 0 < s <= t0 ->
      forall c, In c l -> 0 < dot n c -> 0 < dot n c + s * dot m c.
Proof.
  induction l as [| c l (t1 & Ht1 & IH)].
  - exists 1. split; [lra | intros s _ c []].
  - destruct (Rle_dec 0 (dot n c)) as [Hp | Hp];
      [destruct (Rle_dec 0 (dot m c)) as [Hq | Hq] |].
    + exists t1. split; [exact Ht1 |].
      intros s Hs c' [<- | Hin] Hc'; [nra | apply IH; assumption].
    + destruct (Req_dec_T (dot n c) 0) as [Hz | Hz].
      * exists t1. split; [exact Ht1 |].
        intros s Hs c' [<- | Hin] Hc'; [lra | apply IH; assumption].
      * set (t2 := dot n c / (2 * - dot m c)).
        assert (Ht2 : 0 < t2).
        { unfold t2. apply Rdiv_lt_0_compat; lra. }
        assert (Hbound : t2 * - dot m c = dot n c / 2).
        { unfold t2. field. lra. }
        exists (Rmin t1 t2). split; [apply Rmin_pos; assumption |].
        intros s [Hs0 Hs] c' [<- | Hin] Hc'.
        -- pose proof (Rmin_r t1 t2). nra.
        -- apply IH; [| assumption | assumption].
           pose proof (Rmin_l t1 t2). lra.
    + exists t1. split; [exact Ht1 |].
      intros s Hs c' [<- | Hin] Hc'; [lra | apply IH; assumption].
Qed.

(** A plane through two unit vectors that are not antipodes, with every
    other vector strictly above it, tilts into an open half-space that
    holds all the vectors. *)
Lemma tilt_half_space (es : list Vector3d) (a b n : Vector3d) (i j : nat) :
  squaredNorm a = 1 -> squaredNorm b = 1 -> dot a b <> -1 ->
  nth_error es i = Some a -> nth_error es j = Some b ->
  dot n a = 0 -> dot n b = 0 ->
  (forall k c, k <> i -> k <> j -> nth_error es k = Some c -> 0 < dot n c) ->
  half_space es.
Proof.
  intros Ha Hb Hd Hi Hj Hna Hnb Hside.
  pose proof (unit_dot_lower a b Ha Hb) as Hlow.
  destruct (small_tilt n (vadd a b) es) as (t0 & Ht0 & Htilt).
  exists (vadd n (vscale t0 (vadd a b))).
  intros v Hv. rewrite dot_vadd_vscale.
  destruct (In_nth_error _ _ Hv) as [k Hk].
  destruct (Nat.eq_dec k i) as [-> | Hki];
    [| destruct (Nat.eq_dec k j) as [-> | Hkj]].
  - assert (v = a) by congruence. subst v. rewrite Hna.
    unfold squaredNorm in Ha.
    assert (dot (vadd a b) a = 1 + dot a b).
    { rewrite <- Ha. unfold dot, vadd; simpl. ring. }
    nra.
  - assert (v = b) by congruence. subst v. rewrite Hnb.
    unfold squaredNorm in Hb.
    assert (dot (vadd a b) b = 1 + dot a b).
    { rewrite <- Hb. unfold dot, vadd; simpl. ring. }
    nra.
  - apply Htilt; [lra | exact Hv |]. apply (Hside k); assumption.
Qed.

(** The pair search is sound for the half-space criterion. *)
Lemma pair_witness_half_space (es : list Vector3d) (i j : nat) :
  unit_vectors es -> pair_witness es i j -> half_space es.
Proof.
  intros Hu (Hij & a & b & Ha & Hb & Hd & Hs).
  assert (Hua : squaredNorm a = 1) by (eapply Hu, nth_error_In, Ha).
  assert (Hub : squaredNorm b = 1) by (eapply Hu, nth_error_In, Hb).
  destruct Hs as [Hneg | Hpos].
  - apply (tilt_half_space es a b (vopp (cross a b)) i j); auto.
    + rewrite dot_vopp_l, dot_cross_l. ring.
    + rewrite dot_vopp_l, dot_cross_r. ring.
    + intros k c Hki Hkj Hk. rewrite dot_vopp_l.
      pose proof (Hneg k c Hki Hkj Hk). lra.
  - apply (tilt_half_space es a b (cross a b) i j); auto.
    + apply dot_cross_l.
    + apply dot_cross_r.
Qed.

Lemma half_space_incl (sub es : list Vector3d) :
  incl sub es -> half_space es -> half_space sub.
Proof. intros Hincl [n Hn]. exists n. intros v Hv. apply Hn, Hincl, Hv. Qed.

Lemma unit_vectors_app (es : list Vector3d) (e : Vector3d) :
  unit_vectors es -> squaredNorm e = 1 -> unit_vectors (es ++ [e]).
Proof.
  intros Hes He v Hv. apply in_app_or in Hv.
  destruct Hv as [Hv | [<- | []]]; [apply Hes, Hv | exact He].
Qed.

(** Acceptance at the exits for sizes 0 and 1 and at the end of the pair
    search puts the stored epsilons and the candidate in one open
    half-space. *)
Lemma accepted_half_space (f : t) (e : Vector3d) (x : Exit) :
  unit_vectors (epsilons f) -> e <> zero ->
  isCompatible_exit f e = (true, x) ->
  x <> ExitPlanar -> x <> ExitPresent ->
  half_space (epsilons f ++ [vdiv e (norm e)]).
Proof.
  intros Hu He Hacc Hx1 Hx2.
  pose proof (norm_neq_0 e He) as Hn.
  pose proof (unit_vdiv_norm e Hn) as Hunit.
  unfold isCompatible_exit in Hacc.
  destruct (Req_dec_T (norm e) 0) as [H0 | _]; [contradiction |].
  destruct (epsilons f) as [| e1 [| e2 rest]] eqn:Heps.
  - exists (vdiv e (norm e)). intros v [<- | []].
    fold (squaredNorm (vdiv e (norm e))). lra.
  - destruct (Req_dec_T (dot (vdiv e (norm e)) e1) (-1)) as [Hd | Hd];
      [discriminate |].
    assert (Hu1 : squaredNorm e1 = 1) by (apply Hu; left; reflexivity).
    pose proof (unit_dot_lower _ _ Hunit Hu1) as Hlow.
    exists (vadd (vdiv e (norm e)) e1).
    unfold squaredNorm in Hunit, Hu1.
    intros v [<- | [<- | []]].
    + assert (dot (vadd (vdiv e (norm e)) e1) e1
              = dot (vdiv e (norm e)) e1 + 1).
      { rewrite <- Hu1. unfold dot, vadd; simpl. ring. }
      lra.
    + assert (dot (vadd (vdiv e (norm e)) e1) (vdiv e (norm e))
              = 1 + dot (vdiv e (norm e)) e1).
      { rewrite <- Hunit at 1. unfold dot, vadd; simpl. ring. }
      lra.
  - destruct (existsb _ _); [injection Hacc as <-; contradiction |].
    destruct (checkPlanar _ _);
      [discriminate | injection Hacc as <-; contradiction |].
    injection Hacc as Hg _.
    unfold general_case in Hg. rewrite Heps in Hg.
    apply a_loop_indexed_iff in Hg. destruct Hg as (i & j & Hw).
    apply (pair_witness_half_space _ i j); [| exact Hw].
    apply unit_vectors_app; assumption.
Qed.


End FeatureHalfSpace.

(** ** Interval evaluation: enclosure and shortened tapes *)

Module TapeFacts.

Import Opcode Clause Tape IntervalEvaluator.

Lemma min_contains (ia ib : Interval.I) (x y : R) :
  Interval.contains ia x -> Interval.contains ib y ->
  Interval.contains (Interval.min ia ib) (Rmin x y).
Proof.
  unfold Interval.contains, Interval.min; simpl. intros [Hx1 Hx2] [Hy1 Hy2].
  unfold Rmin. repeat destruct (Rle_dec _ _); lra.
Qed.

Lemma max_contains (ia ib : Interval.I) (x y : R) :
  Interval.contains ia x -> Interval.contains ib y ->
  Interval.contains (Interval.max ia ib) (Rmax x y).
Proof.
  unfold Interval.contains, Interval.max; simpl. intros [Hx1 Hx2] [Hy1 Hy2].
  unfold Rmax. repeat destruct (Rle_dec _ _); lra.
Qed.

Lemma store_slot_eq {V : Type} (k : Id) (v : V) (m : Slots V) :
  store_slot k v m k = v.
Proof. unfold store_slot. rewrite Nat.eqb_refl. reflexivity. Qed.

Lemma store_slot_neq {V : Type} (k k' : Id) (v : V) (m : Slots V) :
  k' <> k -> store_slot k v m k' = m k'.
Proof.
  intros H. unfold store_slot. apply Nat.eqb_neq in H. rewrite H.
  reflexivity.
Qed.

Section Enclosure.

Variable ar : Arithmetic.
Hypothesis ar_sound : outward_sound ar.

Let walkI := rwalk (H := interval_evaluator ar).
Let walkP := rwalk (H := point_evaluator ar).

Lemma clause_encloses (o : Opcode) (cx cy : Cell) (x y : R) :
  Interval.contains (i cx) x -> Interval.contains (i cy) y ->
  Interval.contains (i (interval_clause ar o cx cy)) (point_clause ar o x y).
Proof.
  intros Hx Hy.
  destruct o; simpl;
    try (apply ar_sound; [reflexivity | assumption | assumption]);
    [apply min_contains | apply max_contains | ]; assumption.
Qed.

Lemma walk_encloses (cs : list Clause) (mI : Slots Cell) (mP : Slots R) :
  encloses mI mP -> encloses (walkI cs mI) (walkP cs mP).
Proof.
  intros H0. induction cs as [| c cs IH]; [exact H0 |].
  intros k. unfold walkI, walkP, rwalk in *. simpl.
  unfold apply_clause at 1 3. unfold store_slot.
  destruct (Nat.eqb k (id c)); [| apply IH].
  apply clause_encloses; apply IH.
Qed.

Lemma load_encloses (d : Deck) (lower upper p : Vector3f) :
  in_box lower upper p ->
  encloses (load_box d lower upper) (load_point d p).
Proof.
  intros (Hx & Hy & Hz) k. unfold load_box, load_point, store_slot.
  destruct (Nat.eqb k (X d)); [exact Hx |].
  destruct (Nat.eqb k (Y d)); [exact Hy |].
  destruct (Nat.eqb k (Z d)); [exact Hz |].
  induction (constants d) as [| [kc v] cs IH]; simpl.
  - unfold Interval.contains; simpl. lra.
  - unfold store, store_slot. simpl.
    destruct (Nat.eqb k kc); [| exact IH].
    unfold Interval.contains; simpl. lra.
Qed.

(** *** Shortening *)

Lemma walk_cons {V : Type} `{Evaluator V} (c : Clause) (cs : list Clause)
    (m : Slots V) :
  rwalk (c :: cs) m = apply_clause c (rwalk cs m).
Proof. reflexivity. Qed.

Lemma walk_app {V : Type} `{Evaluator V} (pre suf : list Clause)
    (m : Slots V) :
  rwalk (pre ++ suf) m = rwalk pre (rwalk suf m).
Proof. unfold rwalk. apply fold_right_app. Qed.

Lemma walk_untouched {V : Type} `{Evaluator V} (pre : list Clause)
    (m : Slots V) (k : Id) :
  ~ In k (map id pre) -> rwalk pre m k = m k.
Proof.
  induction pre as [| c pre IH]; intros Hk; [reflexivity |].
  simpl in Hk. unfold rwalk in *. simpl. unfold apply_clause at 1.
  rewrite store_slot_neq by (intros ->; apply Hk; left; reflexivity).
  apply IH. intros Hin. apply Hk. right; exact Hin.
Qed.

Lemma well_formed_operands (pre : list Clause) (c : Clause)
    (rest : list Clause) :
  well_formed (pre ++ c :: rest) ->
  ~ In (a c) (map id (pre ++ [c])) /\ ~ In (b c) (map id (pre ++ [c])).
Proof.
  induction pre as [| q pre IH]; simpl.
  - intros (Ha & Hb & _ & _). split; intros [H | []]; congruence.
  - intros (_ & _ & Hq & Hwf). destruct (IH Hwf) as [IHa IHb].
    assert (Hin : In c (pre ++ c :: rest))
      by (apply in_or_app; right; left; reflexivity).
    destruct (Hq c Hin) as [Hqa Hqb].
    split; intros [H | H]; auto.
Qed.

Lemma id_shorten (m : Slots Cell) (c : Clause) : id (shorten m c) = id c.
Proof.
  unfold shorten. destruct (op c); try reflexivity;
    repeat destruct (Rlt_dec _ _); reflexivity.
Qed.

(** A decided [min] or [max] and its pass-through write the same number,
    as long as the operand intervals hold the operand values. *)
Lemma shorten_same_value (m : Slots Cell) (c : Clause) (mP : Slots R) :
  Interval.contains (i (m (a c))) (mP (a c)) ->
  Interval.contains (i (m (b c))) (mP (b c)) ->
  point_clause ar (op (shorten m c))
               (mP (a (shorten m c))) (mP (b (shorten m c)))
  = point_clause ar (op c) (mP (a c)) (mP (b c)).
Proof.
  unfold Interval.contains. intros [Ha1 Ha2] [Hb1 Hb2]. unfold shorten.
  destruct (op c) eqn:Hop; try (rewrite Hop; reflexivity).
  - destruct (Rlt_dec _ _) as [H1 | H1]; simpl.
    + unfold Rmin. destruct (Rle_dec _ _); lra.
    + destruct (Rlt_dec _ _) as [H2 | H2]; simpl.
      * unfold Rmin. destruct (Rle_dec _ _); lra.
      * rewrite Hop. reflexivity.
  - destruct (Rlt_dec _ _) as [H1 | H1]; simpl.
    + unfold Rmax. destruct (Rle_dec _ _); lra.
    + destruct (Rlt_dec _ _) as [H2 | H2]; simpl.
      * unfold Rmax. destruct (Rle_dec _ _); lra.
      * rewrite Hop. reflexivity.
Qed.

Lemma shorten_walk (L : list Clause) (mI : Slots Cell) (mP : Slots R) :
  well_formed L -> encloses mI mP ->
  forall cs pre, L = pre ++ cs ->
    forall k, walkP (map (shorten (walkI L mI)) cs) mP k = walkP cs mP k.
Proof.
  intros Hwf H0. induction cs as [| c rest IH]; intros pre HL k;
    [reflexivity |].
  assert (HL' : L = (pre ++ [c]) ++ rest)
    by (rewrite <- app_assoc; exact HL).
  pose proof (IH _ HL') as IHrest.
  simpl map. unfold walkP in *. rewrite !walk_cons.
  unfold apply_clause. rewrite id_shorten. unfold store_slot.
  destruct (Nat.eqb k (id c)); [| apply IHrest].
  simpl clause_op. rewrite !IHrest.
  rewrite HL in Hwf. destruct (well_formed_operands _ _ _ Hwf) as [Hna Hnb].
  apply shorten_same_value.
  - rewrite HL'. unfold walkI. rewrite walk_app.
    rewrite walk_untouched by exact Hna.
    apply (walk_encloses rest mI mP H0).
  - rewrite HL'. unfold walkI. rewrite walk_app.
    rewrite walk_untouched by exact Hnb.
    apply (walk_encloses rest mI mP H0).
Qed.

(** *** Dropping *)

Lemma is_active_In (active : list Id) (k : Id) :
  is_active active k = true <-> In k active.
Proof.
  unfold is_active. rewrite existsb_exists. split.
  - intros (x & Hx & Hk). apply Nat.eqb_eq in Hk. subst; exact Hx.
  - intros H. exists k. split; [exact H | apply Nat.eqb_refl].
Qed.

Lemma drop_walk (cs : list Clause) (mP : Slots R) :
  forall active k, In k active ->
    walkP (drop_unreachable active cs) mP k = walkP cs mP k.
Proof.
  induction cs as [| c rest IH]; intros active k Hk; [reflexivity |].
  simpl. destruct (is_active active (id c)) eqn:Hact.
  - unfold walkP, rwalk in *. simpl. unfold apply_clause at 1 3.
    unfold store_slot.
    destruct (Nat.eqb k (id c)).
    + simpl. unfold operands.
      destruct (op c) eqn:Hop; simpl;
        try (rewrite !(IH (_ :: _ :: active)) by (simpl; tauto);
             reflexivity).
      rewrite (IH (_ :: active)) by (simpl; tauto). reflexivity.
    + apply IH. apply in_or_app. right; exact Hk.
  - assert (Hne : k <> id c).
    { intros ->. apply is_active_In in Hk. congruence. }
    rewrite (IH active k Hk).
    unfold walkP, rwalk. simpl. unfold apply_clause at 2.
    rewrite store_slot_neq by exact Hne. reflexivity.
Qed.

(** Shared by the two statements below: the interval of every slot after
    the walk on a box holds the number of that slot after the walk on a
    point of the box. *)
Lemma evaluate_encloses (d : Deck) (lower upper p : Vector3f) (cs : list Clause) :
  in_box lower upper p ->
  encloses (walkI cs (load_box d lower upper)) (walkP cs (load_point d p)).
Proof. intros Hp. apply walk_encloses, load_encloses, Hp. Qed.

Lemma push_same_value (d : Deck) (lower upper p : Vector3f) (t : Tape) :
  well_formed (clauses t) -> in_box lower upper p ->
  eval_point ar d p (push (evaluate ar d lower upper t) t)
  = eval_point ar d p t.
Proof.
  intros Hwf Hp. unfold eval_point, push, evaluate. simpl.
  fold walkP. rewrite drop_walk by (left; reflexivity).
  apply (shorten_walk (clauses t) _ _ Hwf (load_encloses d _ _ _ Hp)
           (clauses t) []).
  reflexivity.
Qed.

End Enclosure.

End TapeFacts.

(** ** The two contracts of the interval evaluator *)

Module IntervalContracts.

Import Opcode Clause Tape IntervalEvaluator TapeFacts TapeScenario.



End IntervalContracts.

(** ** The eigenvalue cutoff *)

Module DCTreeFacts.

Import DCTree.

Lemma literal_0_1f_bits : literal_0_1f = S754_finite false 13421773 (-27).
Proof. vm_compute. reflexivity. Qed.

(** The conversion to [double] is exact: same number, longer mantissa. *)
Lemma EIGENVALUE_CUTOFF_bits :
  EIGENVALUE_CUTOFF = S754_finite false 7205759511166976 (-56).
Proof. vm_compute. reflexivity. Qed.

Lemma EIGENVALUE_CUTOFF_real :
  real_value EIGENVALUE_CUTOFF = 13421773 / 134217728.
Proof.
  rewrite EIGENVALUE_CUTOFF_bits. unfold real_value, powerRZ.
  simpl pow. lra.
Qed.

(** C9 fails on the code: the constant is not one tenth. *)
Lemma EIGENVALUE_CUTOFF_not_one_tenth :
  real_value EIGENVALUE_CUTOFF <> 1 / 10.
Proof. rewrite EIGENVALUE_CUTOFF_real. lra. Qed.

(** C9, as the code has it.  [EIGENVALUE_CUTOFF] is the [double] that
    holds the binary32 value nearest to 0.1, that is 13421773 / 2^27: it
    exceeds 0.1 by 1/671088640, about 1.5e-9. *)
Theorem EIGENVALUE_CUTOFF_value :
  EIGENVALUE_CUTOFF = double_of_float (S754_finite false 13421773 (-27)) /\
  real_value EIGENVALUE_CUTOFF = 13421773 / 134217728 /\
  real_value EIGENVALUE_CUTOFF - 1 / 10 = 1 / 671088640.
Proof.
  split; [vm_compute; reflexivity |].
  rewrite EIGENVALUE_CUTOFF_real. split; lra.
Qed.

End DCTreeFacts.

(** ** Instances on the features of the scenarios *)

Module FeatureInstances.

Import EigenFacts Feature FeatureSpec FeatureSearch FeatureScenarios
  FeatureHalfSpace FeatureFacts Scenarios.

Lemma cone5_units : unit_vectors (epsilons cone5).
Proof.
  intros v Hv. simpl in Hv.
  repeat (destruct Hv as [<- | Hv];
          [unfold squaredNorm, dot; simpl; lra |]).
  destruct Hv.
Qed.

Lemma outside_nonzero : outside <> zero.
Proof. unfold outside, zero. intros H. injection H. intros. lra. Qed.

Lemma in_face_xz_nonzero : in_face_xz <> zero.
Proof. unfold in_face_xz, zero. intros H. injection H. intros. lra. Qed.

Lemma norm_2_0_0 : norm (Vec3 2 0 0) = 2.
Proof.
  apply norm_of_square; [lra |]. unfold squaredNorm, dot; simpl. ring.
Qed.

Lemma norm_0_0_m2 : norm (Vec3 0 0 (-2)) = 2.
Proof.
  apply norm_of_square; [lra |]. unfold squaredNorm, dot; simpl. ring.
Qed.

Lemma norm_0_3_4 : norm (Vec3 0 3 4) = 5.
Proof.
  apply norm_of_square; [lra |]. unfold squaredNorm, dot; simpl. ring.
Qed.

(** [push] on the cone: the outside vector goes in, the vector in the
    third face does not. *)
Lemma push_spec_witness :
  (isCompatible cone5 outside = true /\
   fst (push cone5 outside (mkChoice 7 1)) = true /\
   choices (snd (push cone5 outside (mkChoice 7 1)))
     = mkChoice 7 1 :: choices cone5 /\
   epsilons (snd (push cone5 outside (mkChoice 7 1)))
     = epsilons cone5 ++ [normalized outside]) /\
  (isCompatible cone5 in_face_xz = false /\
   push cone5 in_face_xz (mkChoice 7 1) = (false, cone5)).
Proof.
  assert (Hacc : isCompatible cone5 outside = true).
  { unfold isCompatible. rewrite cone5_accepts_outside. reflexivity. }
  assert (Hrej : isCompatible cone5 in_face_xz = false).
  { unfold isCompatible. rewrite cone5_rejects_in_face. reflexivity. }
  assert (Hnew : ~ In (normalized outside) (epsilons cone5)).
  { rewrite (normalized_unit _ outside_unit). unfold outside. simpl.
    intros H.
    repeat (destruct H as [H | H];
            [injection H; intros; lra |]).
    exact H. }
  destruct (push_spec cone5 outside (mkChoice 7 1)) as [Hpush _].
  destruct (Hpush Hacc) as (H1 & H2 & _ & H4).
  destruct (push_spec cone5 in_face_xz (mkChoice 7 1)) as [_ Hfail].
  split.
  - split; [exact Hacc |]. split; [exact H1 |]. split; [exact H2 |].
    exact (H4 Hnew).
  - split; [exact Hrej | exact (Hfail Hrej)].
Defined.

(** A candidate of length 2 along the first stored epsilon. *)
Lemma isCompatible_already_present_witness :
  (2 <= length (epsilons cone5))%nat /\
  Vec3 2 0 0 <> zero /\
  In (vdiv (Vec3 2 0 0) (norm (Vec3 2 0 0))) (epsilons cone5) /\
  isCompatible_exit cone5 (Vec3 2 0 0) = (true, ExitPresent).
Proof.
  assert (H1 : (2 <= length (epsilons cone5))%nat) by (simpl; lia).
  assert (H2 : Vec3 2 0 0 <> zero).
  { unfold zero. intros H. injection H. intros. lra. }
  assert (H3 : In (vdiv (Vec3 2 0 0) (norm (Vec3 2 0 0))) (epsilons cone5)).
  { rewrite norm_2_0_0. left. unfold vdiv; simpl. f_equal; field. }
  split; [exact H1 |]. split; [exact H2 |]. split; [exact H3 |].
  exact (isCompatible_already_present cone5 (Vec3 2 0 0) H1 H2 H3).
Defined.



End FeatureInstances.

(** ** Instances on the tape [min(x + 10, -z)] and the unit cube *)

Module TapeInstances.

Import Opcode Clause Tape IntervalEvaluator TapeFacts TapeScenario
  IntervalContracts.

Lemma mul_between (lo hi x y : R) :
  lo <= x <= hi -> Rmin (lo * y) (hi * y) <= x * y <= Rmax (lo * y) (hi * y).
Proof.
  intros [H1 H2]. unfold Rmin, Rmax.
  destruct (Rle_dec (lo * y) (hi * y)); destruct (Rle_dec 0 y); nra.
Qed.

Lemma interval_mul_contains (ia ib : Interval.I) (x y : R) :
  Interval.contains ia x -> Interval.contains ib y ->
  Interval.contains (interval_mul ia ib) (x * y).
Proof.
  unfold Interval.contains, interval_mul; simpl. intros Hx Hy.
  destruct (mul_between _ _ x y Hx) as [Hlo Hhi].
  pose proof (mul_between _ _ y (Interval.lower ia) Hy) as [Hl1 Hl2].
  pose proof (mul_between _ _ y (Interval.upper ia) Hy) as [Hu1 Hu2].
  rewrite !(Rmult_comm _ (Interval.lower ia)) in Hl1, Hl2.
  rewrite !(Rmult_comm _ (Interval.upper ia)) in Hu1, Hu2.
  split.
  - apply Rle_trans with (2 := Hlo). apply Rmin_glb.
    + apply Rle_trans with (2 := Hl1). apply Rmin_l.
    + apply Rle_trans with (2 := Hu1). apply Rmin_r.
  - apply Rle_trans with (1 := Hhi). apply Rmax_lub.
    + apply Rle_trans with (1 := Hl2). apply Rmax_l.
    + apply Rle_trans with (1 := Hu2). apply Rmax_r.
Qed.

Lemma interval_abs_contains (ia : Interval.I) (x : R) :
  Interval.contains ia x -> Interval.contains (interval_abs ia) (Rabs x).
Proof.
  unfold Interval.contains, interval_abs. intros [H1 H2].
  destruct (Rle_dec 0 (Interval.lower ia));
    [| destruct (Rle_dec (Interval.upper ia) 0)]; simpl;
    unfold Rabs, Rmax; destruct (Rcase_abs x);
    try destruct (Rle_dec _ _); lra.
Qed.

Lemma exact_sound : outward_sound exact.
Proof.
  intros o ia ib x y _ Hx Hy.
  destruct o; simpl;
    try (destruct Hx, Hy; unfold Interval.contains; simpl; lra).
  - apply interval_mul_contains; assumption.
  - apply interval_abs_contains; assumption.
  - replace (x * x) with (Rabs x * Rabs x)
      by (unfold Rabs; destruct (Rcase_abs x); ring).
    apply interval_mul_contains; apply interval_abs_contains; assumption.
Qed.

Lemma tape_min_well_formed : well_formed (clauses tape_min).
Proof.
  simpl.
  repeat match goal with
         | |- _ /\ _ => split
         | |- forall _, _ => intro
         | |- True => exact I
         | H : _ \/ _ |- _ => destruct H
         | H : False |- _ => destruct H
         | H : _ = _ |- _ => subst
         end; simpl in *; lia.
Qed.

Lemma centre_in_cube : in_box cube_lower cube_upper cube_centre.
Proof. unfold in_box; simpl. lra. Qed.

(** What [intervalAndPush] returns on the cube: the interval [-1, 0] and
    the tape without the sum. *)
Lemma intervalAndPush_tape_min :
  intervalAndPush exact deck cube_lower cube_upper tape_min
  = mkResult (Interval.mkI (Rmin (0 + 10) (- (1))) (Rmin (1 + 10) (- (0))))
             true tape_min_pushed.
Proof.
  unfold intervalAndPush, push, evaluate, tape_min, tape_min_pushed.
  simpl. f_equal.
  unfold shorten, apply_clause, store_slot; simpl.
  destruct (Rlt_dec (1 + 10) (- (1))) as [H | _]; [exfalso; lra |].
  destruct (Rlt_dec (- (0)) (0 + 10)) as [_ | H]; [| exfalso; lra].
  reflexivity.
Qed.

(** "outside it may differ": at (-20, 0, 0) the original tape gives -10
    and the shortened one 0. *)
Lemma tape_min_pushed_differs_outside :
  eval_point exact deck (Vec3 (-20) 0 0) tape_min = -10 /\
  eval_point exact deck (Vec3 (-20) 0 0) tape_min_pushed = 0.
Proof.
  unfold eval_point, tape_min, tape_min_pushed; simpl.
  unfold apply_clause, load_point, store_slot; simpl.
  split; [| lra].
  unfold Rmin. destruct (Rle_dec _ _); lra.
Qed.



End TapeInstances.

(** * Further properties of [Feature] *)

(** ** The order on choices *)

Module ChoiceOrder.

Import Feature.

Lemma choice_lt_irrefl (x : Choice) : choice_lt x x = false.
Proof.
  unfold choice_lt. rewrite Nat.eqb_refl. simpl. apply Z.ltb_irrefl.
Qed.

Lemma choice_lt_spec (x y : Choice) :
  choice_lt x y = true <->
  (id x < id y)%nat \/ (id x = id y /\ (choice x < choice y)%Z).
Proof.
  unfold choice_lt. destruct (Nat.eqb_spec (id x) (id y)) as [He | He]; simpl.
  - rewrite Z.ltb_lt. split; [intros H; right; tauto |].
    intros [H | [_ H]]; [lia | exact H].
  - rewrite Nat.ltb_lt. split; [tauto |]. intros [H | [H _]]; [exact H | lia].
Qed.

(** [operator<] on [Feature::Choice] is a strict total order: nothing is
    below itself, the relation is transitive, and two choices neither of
    which is below the other are the same choice (same id, same side). *)
Theorem choice_lt_strict_total_order :
  (forall x, choice_lt x x = false) /\
  (forall x y z, choice_lt x y = true -> choice_lt y z = true ->
                 choice_lt x z = true) /\
  (forall x y, choice_lt x y = false -> choice_lt y x = false -> x = y).
Proof.
  split; [exact choice_lt_irrefl |]. split.
  - intros x y z Hxy Hyz. apply choice_lt_spec in Hxy, Hyz.
    apply choice_lt_spec. lia.
  - intros [ix cx] [iy cy] Hxy Hyx.
    assert (Hn1 : ~ choice_lt (mkChoice ix cx) (mkChoice iy cy) = true)
      by congruence.
    assert (Hn2 : ~ choice_lt (mkChoice iy cy) (mkChoice ix cx) = true)
      by congruence.
    rewrite choice_lt_spec in Hn1, Hn2. simpl in *.
    assert (ix = iy) by lia. assert (cx = cy) by lia. subst. reflexivity.
Qed.

Lemma choice_lt_strict_total_order_witness :
  choice_lt (mkChoice 1 5) (mkChoice 2 (-3)) = true /\
  choice_lt (mkChoice 2 (-3)) (mkChoice 2 0) = true /\
  choice_lt (mkChoice 1 5) (mkChoice 2 0) = true /\
  mkChoice 4 1 = mkChoice 4 1.
Proof.
  destruct choice_lt_strict_total_order as (_ & Htrans & Htri).
  assert (H1 : choice_lt (mkChoice 1 5) (mkChoice 2 (-3)) = true)
    by reflexivity.
  assert (H2 : choice_lt (mkChoice 2 (-3)) (mkChoice 2 0) = true)
    by reflexivity.
  split; [exact H1 |]. split; [exact H2 |].
  split; [exact (Htrans _ _ _ H1 H2) |].
  apply Htri; reflexivity.
Defined.

End ChoiceOrder.

(** ** What [push] and [push_raw] keep *)

Module PushInvariants.

Import EigenFacts Feature FeatureSpec FeatureUse.

Lemma isCompatible_norm_neq_0 (f : t) (e : Vector3d) :
  isCompatible f e = true -> norm e <> 0.
Proof.
  unfold isCompatible, isCompatible_exit.
  destruct (Req_dec_T (norm e) 0) as [H | H];
    [discriminate | intros _; exact H].
Qed.

(** The two shapes of [epsilons] after [push]. *)
Lemma push_epsilons (f : t) (e : Vector3d) (c : Choice) :
  epsilons (snd (push f e c)) = epsilons f \/
  (isCompatible f e = true /\ ~ In (normalized e) (epsilons f) /\
   epsilons (snd (push f e c)) = epsilons f ++ [normalized e]).
Proof.
  unfold push. destruct (isCompatible f e) eqn:Hacc; [| left; reflexivity].
  destruct (existsb (veqb (normalized e)) (epsilons f)) eqn:Hex; simpl.
  - left; reflexivity.
  - right. split; [reflexivity |]. split; [| reflexivity].
    intros Hin. apply existsb_veqb_In in Hin. congruence.
Qed.

Lemma normalized_nonzero_unit (v : Vector3d) :
  norm v <> 0 -> squaredNorm (normalized v) = 1.
Proof.
  intros Hn. rewrite (normalized_vdiv v Hn). apply unit_vdiv_norm, Hn.
Qed.

Lemma push_units (f : t) (e : Vector3d) (c : Choice) :
  unit_vectors (epsilons f) -> unit_vectors (epsilons (snd (push f e c))).
Proof.
  intros Hu. destruct (push_epsilons f e c) as [-> | (Hacc & _ & ->)];
    [exact Hu |].
  intros v Hv. apply in_app_or in Hv. destruct Hv as [Hv | [<- | []]].
  - apply Hu, Hv.
  - apply normalized_nonzero_unit, (isCompatible_norm_neq_0 f), Hacc.
Qed.


Lemma push_NoDup (f : t) (e : Vector3d) (c : Choice) :
  NoDup (epsilons f) -> NoDup (epsilons (snd (push f e c))).
Proof.
  intros Hnd. destruct (push_epsilons f e c) as [-> | (_ & Hnew & ->)];
    [exact Hnd |].
  apply NoDup_app; [exact Hnd | constructor; [intros [] | constructor] |].
  intros x Hx [<- | []]. contradiction.
Qed.

(** [push] never stores an epsilon twice: a sequence of [push] calls on a
    feature without repeated epsilons leaves one without repeated
    epsilons. *)
Theorem epsilons_stay_distinct (f : t) (ops : list (Vector3d * Choice)) :
  NoDup (epsilons f) -> NoDup (epsilons (push_seq f ops)).
Proof.
  revert f. induction ops as [| [e c] ops IH]; intros f Hnd; [exact Hnd |].
  simpl. apply IH, push_NoDup, Hnd.
Qed.

Lemma push_choices_mapped (f : t) (e : Vector3d) (c : Choice) :
  choices_mapped f -> choices_mapped (snd (push f e c)).
Proof.
  intros Hm. unfold push. destruct (isCompatible f e); [| exact Hm].
  assert (Hnew : forall es,
             choices_mapped
               (mkFeature es (c :: choices f)
                          (map_assign (_epsilons f) (id c) e))).
  { intros es c' [<- | Hc']; unfold map_assign; simpl.
    - rewrite Nat.eqb_refl. eauto.
    - destruct (Nat.eqb (id c') (id c)); [eauto | apply Hm, Hc']. }
  destruct (existsb _ _); simpl; apply Hnew.
Qed.

(** The map [_epsilons] covers the choices: in a feature where every
    recorded choice has an entry under its id, this stays so after any
    sequence of [push] calls and after [push_raw]; an accepted [push] puts
    its choice first and files under its id the vector as it was passed,
    not the normalized one. *)
Theorem choices_stay_mapped (f : t) (ops : list (Vector3d * Choice)) :
  choices_mapped f ->
  choices_mapped (push_seq f ops) /\
  (forall c v, choices_mapped (push_raw f c v)) /\
  (forall e c, isCompatible f e = true ->
     hd_error (choices (snd (push f e c))) = Some c /\
     _epsilons (snd (push f e c)) (id c) = Some e).
Proof.
  intros Hm. split; [| split].
  - revert f Hm. induction ops as [| [e c] ops IH]; intros f Hm;
      [exact Hm |].
    simpl. apply IH, push_choices_mapped, Hm.
  - intros c v c' Hc'. simpl in Hc'. unfold push_raw, map_assign; simpl.
    apply in_app_or in Hc'.
    destruct (Nat.eqb_spec (id c') (id c)) as [Heq | Hne]; [eauto |].
    destruct Hc' as [Hc' | [<- | []]]; [apply Hm, Hc' | congruence].
  - intros e c Hacc. unfold push. rewrite Hacc.
    destruct (existsb _ _); simpl; unfold map_assign;
      rewrite Nat.eqb_refl; split; reflexivity.
Qed.

(** A candidate whose normalized form is stored is compatible, also when
    it is the only epsilon. *)
Lemma stored_compatible (f : t) (e : Vector3d) :
  norm e <> 0 -> In (vdiv e (norm e)) (epsilons f) ->
  isCompatible f e = true.
Proof.
  intros Hn Hin. pose proof (unit_vdiv_norm e Hn) as Hu.
  unfold isCompatible, isCompatible_exit.
  destruct (Req_dec_T (norm e) 0) as [H | _]; [contradiction |].
  destruct (epsilons f) as [| e1 [| e2 rest]] eqn:Heps.
  - destruct Hin.
  - destruct Hin as [Heq | []]. subst e1. simpl.
    destruct (Req_dec_T _ (-1)) as [Hd | _]; [| reflexivity].
    unfold squaredNorm in Hu. rewrite Hu in Hd. lra.
  - apply existsb_veqb_In in Hin. rewrite Hin. reflexivity.
Qed.

(** Pushing the same vector again.  After a [push] that returned [true],
    a second [push] of the same vector (with any choice) returns [true]
    too, leaves [epsilons] as it is and puts the new choice first. *)
Theorem push_again (f : t) (e : Vector3d) (c c' : Choice) :
  fst (push f e c) = true ->
  fst (push (snd (push f e c)) e c') = true /\
  epsilons (snd (push (snd (push f e c)) e c'))
    = epsilons (snd (push f e c)) /\
  choices (snd (push (snd (push f e c)) e c'))
    = c' :: choices (snd (push f e c)).
Proof.
  intros Hfst.
  assert (Hacc : isCompatible f e = true).
  { unfold push in Hfst. destruct (isCompatible f e);
      [reflexivity | discriminate]. }
  pose proof (isCompatible_norm_neq_0 f e Hacc) as Hn.
  set (f1 := snd (push f e c)).
  assert (Hin : In (normalized e) (epsilons f1)).
  { unfold f1. destruct (push_epsilons f e c) as [Heq | (_ & _ & Heq)].
    - rewrite Heq. unfold push in Heq. rewrite Hacc in Heq.
      destruct (existsb (veqb (normalized e)) (epsilons f)) eqn:Hex.
      + apply existsb_veqb_In, Hex.
      + simpl in Heq. exfalso.
        assert (Hlen : length (epsilons f ++ [normalized e])
                       = length (epsilons f)) by (rewrite Heq; reflexivity).
        rewrite length_app in Hlen. simpl in Hlen. lia.
    - rewrite Heq. apply in_or_app. right; left; reflexivity. }
  assert (Hacc1 : isCompatible f1 e = true).
  { apply stored_compatible; [exact Hn |].
    rewrite <- (normalized_vdiv e Hn). exact Hin. }
  assert (Hpush : push f1 e c'
                  = (true, mkFeature (epsilons f1) (c' :: choices f1)
                                     (map_assign (_epsilons f1) (id c') e))).
  { unfold push. rewrite Hacc1.
    apply existsb_veqb_In in Hin. rewrite Hin. reflexivity. }
  rewrite Hpush. simpl. repeat split; reflexivity.
Qed.

End PushInvariants.

(** ** [isCompatible] and the direction of the candidate *)

Module Direction.

Import EigenFacts Feature FeatureSpec FeatureSearch FeatureUse PushInvariants.

Lemma vscale_zero (s : R) : vscale s zero = zero.
Proof. unfold vscale, zero; simpl. f_equal; ring. Qed.

Lemma norm_vscale (s : R) (e : Vector3d) :
  0 < s -> norm (vscale s e) = s * norm e.
Proof.
  intros Hs. unfold norm.
  replace (squaredNorm (vscale s e)) with (s * s * squaredNorm e)
    by (unfold squaredNorm, dot, vscale; simpl; ring).
  rewrite sqrt_mult by (try apply squaredNorm_nonneg; nra).
  rewrite sqrt_square by lra. reflexivity.
Qed.

Lemma vdiv_vscale (s : R) (e : Vector3d) :
  0 < s -> norm e <> 0 ->
  vdiv (vscale s e) (norm (vscale s e)) = vdiv e (norm e).
Proof.
  intros Hs Hn. rewrite (norm_vscale s e Hs).
  unfold vdiv, vscale; simpl. f_equal; field; split; lra.
Qed.

Lemma normalized_vscale (s : R) (e : Vector3d) :
  0 < s -> normalized (vscale s e) = normalized e.
Proof.
  intros Hs. destruct (veq_dec e zero) as [-> | He].
  - rewrite vscale_zero. reflexivity.
  - pose proof (norm_neq_0 e He) as Hn.
    assert (Hn' : norm (vscale s e) <> 0)
      by (rewrite (norm_vscale s e Hs); nra).
    rewrite (normalized_vdiv _ Hn'), (normalized_vdiv _ Hn).
    apply vdiv_vscale; assumption.
Qed.


Lemma dot_vopp_r (a b : Vector3d) : dot a (vopp b) = - dot a b.
Proof. unfold dot, vopp; simpl. ring. Qed.

Lemma cross_vopp_self (a : Vector3d) : cross (vopp a) a = zero.
Proof. unfold cross, vopp, zero; simpl. f_equal; ring. Qed.

Lemma cross_self (a : Vector3d) : cross a a = zero.
Proof. unfold cross, zero; simpl. f_equal; ring. Qed.

(** No pair witnesses on a list that holds a unit vector and its
    antipode. *)
Lemma no_witness_with_antipode (es : list Vector3d) (u : Vector3d)
    (p q : nat) :
  squaredNorm u = 1 ->
  nth_error es p = Some u -> nth_error es q = Some (vopp u) ->
  forall i j, ~ pair_witness es i j.
Proof.
  intros Hu Hp Hq i j (Hij & a & b & Ha & Hb & Hd & Hs).
  assert (Hpq : p <> q).
  { intros ->. rewrite Hp in Hq. injection Hq as Heq.
    destruct u as [x y z]. unfold vopp in Heq; simpl in Heq.
    injection Heq as Hx Hy Hz.
    unfold squaredNorm, dot in Hu; simpl in Hu. nra. }
  unfold squaredNorm in Hu.
  assert (Hside : forall k c, k <> i -> k <> j -> nth_error es k = Some c ->
                              dot (cross a b) c <> 0).
  { intros k c Hki Hkj Hk.
    destruct Hs as [H | H]; specialize (H k c Hki Hkj Hk); lra. }
  assert (Hboth : forall k k' c, k <> i -> k <> j -> k' <> i -> k' <> j ->
                    nth_error es k = Some c ->
                    nth_error es k' = Some (vopp c) -> False).
  { intros k k' c Hki Hkj Hk'i Hk'j Hk Hk'.
    destruct Hs as [H | H];
      pose proof (H k c Hki Hkj Hk) as H1;
      pose proof (H k' _ Hk'i Hk'j Hk') as H2;
      rewrite dot_vopp_r in H2; lra. }
  destruct (Nat.eq_dec i p) as [-> | Hip];
    [| destruct (Nat.eq_dec i q) as [-> | Hiq]].
  - (* a = u *)
    assert (a = u) by congruence. subst a.
    destruct (Nat.eq_dec j q) as [-> | Hjq].
    + assert (b = vopp u) by congruence. subst b.
      apply Hd. rewrite dot_vopp_r. lra.
    + apply (Hside q (vopp u)); [lia | lia | exact Hq |].
      unfold dot, cross, vopp; simpl. ring.
  - (* a = -u *)
    assert (a = vopp u) by congruence. subst a.
    destruct (Nat.eq_dec j p) as [-> | Hjp].
    + assert (b = u) by congruence. subst b.
      apply Hd. unfold dot, vopp in *; simpl in *. lra.
    + apply (Hside p u); [lia | lia | exact Hp |].
      unfold dot, cross, vopp; simpl. ring.
  - destruct (Nat.eq_dec j p) as [-> | Hjp];
      [| destruct (Nat.eq_dec j q) as [-> | Hjq]].
    + assert (b = u) by congruence. subst b.
      apply (Hside q (vopp u)); [lia | lia | exact Hq |].
      unfold dot, cross, vopp; simpl. ring.
    + assert (b = vopp u) by congruence. subst b.
      apply (Hside p u); [lia | lia | exact Hp |].
      unfold dot, cross, vopp; simpl. ring.
    + apply (Hboth p q u); auto; lia.
Qed.

Lemma antipode_stored_rejected (f : t) (e : Vector3d) :
  e <> zero ->
  In (vopp (vdiv e (norm e))) (epsilons f) ->
  ~ In (vdiv e (norm e)) (epsilons f) ->
  isCompatible f e = false.
Proof.
  intros He Hanti Hnew.
  pose proof (norm_neq_0 e He) as Hn.
  pose proof (unit_vdiv_norm e Hn) as Hu.
  unfold isCompatible. rewrite (isCompatible_exit_normalize f e Hn).
  set (u := vdiv e (norm e)) in *. clearbody u.
  destruct (epsilons f) as [| e1 [| e2 rest]] eqn:Heps.
  - destruct Hanti.
  - destruct Hanti as [Heq | []]. subst e1.
    rewrite (isCompatible_exit_unit f u Hu), Heps. simpl.
    destruct (Req_dec_T _ (-1)) as [_ | Hd]; [reflexivity |].
    exfalso. apply Hd. rewrite dot_vopp_r. unfold squaredNorm in Hu. lra.
  - rewrite (isCompatible_general f u e1 e2 rest Heps Hu).
    + simpl. apply not_true_is_false. rewrite general_case_iff, Heps.
      intros (i & j & Hw).
      destruct (In_nth_error _ _ Hanti) as [q Hq].
      refine (no_witness_with_antipode _ u (length (e1 :: e2 :: rest)) q
                Hu _ _ i j Hw).
      * rewrite nth_error_app2 by lia. rewrite Nat.sub_diag. reflexivity.
      * rewrite nth_error_app1; [exact Hq |].
        apply nth_error_Some. congruence.
    + rewrite Heps. exact Hnew.
    + destruct Hanti as [Heq | Hin].
      * subst e1. apply Exists_cons_hd. intros (_ & Hk & _). apply Hk.
        apply cross_vopp_self.
      * apply Exists_exists. exists (vopp u). split; [exact Hin |].
        intros (Hc & _ & _). apply Hc. apply cross_vopp_self.
Qed.


End Direction.

(** ** The order of the stored epsilons *)

Module StoredOrder.

Import EigenFacts Feature FeatureSpec FeatureSearch FeatureUse.

(** Being parallel to a vector that is not zero is transitive. *)
Lemma cross_zero_trans (c d k : Vector3d) :
  k <> zero -> cross c k = zero -> cross d k = zero -> cross c d = zero.
Proof.
  destruct c as [cx cy cz], d as [dx dy dz], k as [kx ky kz].
  unfold cross, zero; simpl. intros Hk Hc Hd.
  injection Hc as Hc1 Hc2 Hc3. injection Hd as Hd1 Hd2 Hd3.
  assert (Hnz : kx <> 0 \/ ky <> 0 \/ kz <> 0).
  { destruct (Req_dec_T kx 0) as [-> | ?]; [| tauto].
    destruct (Req_dec_T ky 0) as [-> | ?]; [| tauto].
    destruct (Req_dec_T kz 0) as [-> | ?]; [| tauto].
    exfalso. apply Hk. reflexivity. }
  assert (Hgoal : cy * dz - cz * dy = 0 /\ cz * dx - cx * dz = 0 /\
                  cx * dy - cy * dx = 0).
  { destruct Hnz as [Hx | [Hy | Hz]].
    - assert (Hs : kx * kx <> 0) by nra.
      repeat split; apply (Rmult_eq_reg_l (kx * kx)); try exact Hs;
        rewrite Rmult_0_r.
      + replace (kx * kx * (cy * dz - cz * dy))
          with ((cy * kx) * (dz * kx) - (cz * kx) * (dy * kx)) by ring.
        replace (cy * kx) with (cx * ky) by lra.
        replace (dz * kx) with (dx * kz) by lra.
        replace (cz * kx) with (cx * kz) by lra.
        replace (dy * kx) with (dx * ky) by lra. ring.
      + replace (kx * kx * (cz * dx - cx * dz))
          with ((cz * kx) * (dx * kx) - (cx * kx) * (dz * kx)) by ring.
        replace (cz * kx) with (cx * kz) by lra.
        replace (dz * kx) with (dx * kz) by lra. ring.
      + replace (kx * kx * (cx * dy - cy * dx))
          with ((cx * kx) * (dy * kx) - (cy * kx) * (dx * kx)) by ring.
        replace (cy * kx) with (cx * ky) by lra.
        replace (dy * kx) with (dx * ky) by lra. ring.
    - assert (Hs : ky * ky <> 0) by nra.
      repeat split; apply (Rmult_eq_reg_l (ky * ky)); try exact Hs;
        rewrite Rmult_0_r.
      + replace (ky * ky * (cy * dz - cz * dy))
          with ((cy * ky) * (dz * ky) - (cz * ky) * (dy * ky)) by ring.
        replace (cz * ky) with (cy * kz) by lra.
        replace (dz * ky) with (dy * kz) by lra. ring.
      + replace (ky * ky * (cz * dx - cx * dz))
          with ((cz * ky) * (dx * ky) - (cx * ky) * (dz * ky)) by ring.
        replace (cz * ky) with (cy * kz) by lra.
        replace (dx * ky) with (dy * kx) by lra.
        replace (cx * ky) with (cy * kx) by lra.
        replace (dz * ky) with (dy * kz) by lra. ring.
      + replace (ky * ky * (cx * dy - cy * dx))
          with ((cx * ky) * (dy * ky) - (cy * ky) * (dx * ky)) by ring.
        replace (cx * ky) with (cy * kx) by lra.
        replace (dx * ky) with (dy * kx) by lra. ring.
    - assert (Hs : kz * kz <> 0) by nra.
      repeat split; apply (Rmult_eq_reg_l (kz * kz)); try exact Hs;
        rewrite Rmult_0_r.
      + replace (kz * kz * (cy * dz - cz * dy))
          with ((cy * kz) * (dz * kz) - (cz * kz) * (dy * kz)) by ring.
        replace (cy * kz) with (cz * ky) by lra.
        replace (dy * kz) with (dz * ky) by lra. ring.
      + replace (kz * kz * (cz * dx - cx * dz))
          with ((cz * kz) * (dx * kz) - (cx * kz) * (dz * kz)) by ring.
        replace (cx * kz) with (cz * kx) by lra.
        replace (dx * kz) with (dz * kx) by lra. ring.
      + replace (kz * kz * (cx * dy - cy * dx))
          with ((cx * kz) * (dy * kz) - (cy * kz) * (dx * kz)) by ring.
        replace (cx * kz) with (cz * kx) by lra.
        replace (dy * kz) with (dz * ky) by lra.
        replace (cy * kz) with (cz * ky) by lra.
        replace (dx * kz) with (dz * kx) by lra. ring. }
  destruct Hgoal as (H1 & H2 & H3). rewrite H1, H2, H3. reflexivity.
Qed.

Lemma cross_self_zero (a : Vector3d) : cross a a = zero.
Proof. unfold cross, zero; simpl. f_equal; ring. Qed.

Lemma angle_start (x : R) :
  0 <= x <= PI / 2 ->
  0 <= std_min 0 x <= PI / 2 /\ 0 <= std_max 0 x <= PI / 2.
Proof.
  intros H. rewrite std_min_Rmin, std_max_Rmax. unfold Rmin, Rmax.
  destruct (Rle_dec 0 x); lra.
Qed.

(** What [checkPlanar] tests, for any candidate: with fewer than two
    epsilons never, otherwise that the cross products with the normalized
    candidate are all different from zero and parallel to each other. *)
Lemma checkPlanar_success_parallel (f : t) (v : Vector3d) :
  checkPlanar f v = PLANAR_SUCCESS <->
  (2 <= length (epsilons f))%nat /\
  crosses_parallel (epsilons f) (normalized v).
Proof.
  unfold checkPlanar, crosses_parallel.
  destruct (epsilons f) as [| first [| second rest]].
  - split; [discriminate | simpl; intros [H _]; lia].
  - split; [discriminate | simpl; intros [H _]; lia].
  - set (w := normalized v). set (k := cross first w).
    destruct (angle_start _ (asin_norm_range k)) as [Hmin Hmax].
    rewrite (checkPlanar_loop_success w k (second :: rest) _ _ Hmin Hmax).
    split.
    + intros HF. split; [simpl; lia |].
      assert (Hk : k <> zero).
      { inversion HF as [| ? ? (_ & Hk & _) _]. exact Hk. }
      rewrite Forall_forall in HF.
      assert (Hpar : forall a, In a (first :: second :: rest) ->
                               cross a w <> zero /\ cross (cross a w) k = zero).
      { intros a [<- | Ha].
        - split; [exact Hk | apply cross_self_zero].
        - destruct (HF a Ha) as (Hc & _ & Hx). split; assumption. }
      split.
      * intros a Ha. apply (Hpar a Ha).
      * intros a b Ha Hb.
        apply (cross_zero_trans _ _ k Hk); [apply (Hpar a Ha) |
                                            apply (Hpar b Hb)].
    + intros [_ [Hnz Hpar]]. apply Forall_forall. intros a Ha.
      unfold colinear. split; [apply Hnz; right; exact Ha |].
      split; [apply Hnz; left; reflexivity |].
      apply Hpar; [right; exact Ha | left; reflexivity].
Qed.


(** Positions carried over a permutation. *)
Lemma pair_witness_permutation (l l' : list Vector3d) (i j : nat) :
  Permutation l l' -> pair_witness l i j ->
  exists i' j', pair_witness l' i' j'.
Proof.
  intros HP (Hij & a & b & Ha & Hb & Hd & Hs).
  apply Permutation_nth_error_bis in HP.
  destruct HP as (g & Hinj & Hb1 & Hnth).
  assert (Hsurj : bSurjective (length l) g).
  { apply (bInjective_bSurjective Hb1). intros x y _ _ H. apply Hinj, H. }
  assert (Hi : (i < length l)%nat) by (apply nth_error_Some; congruence).
  assert (Hj : (j < length l)%nat) by (apply nth_error_Some; congruence).
  destruct (Hsurj i Hi) as (i' & _ & Hi').
  destruct (Hsurj j Hj) as (j' & _ & Hj').
  exists i', j'. split; [congruence |]. exists a, b.
  split; [rewrite Hnth, Hi'; exact Ha |].
  split; [rewrite Hnth, Hj'; exact Hb |].
  split; [exact Hd |].
  assert (Hother : forall k, k <> i' -> k <> j' -> g k <> i /\ g k <> j).
  { intros k Hki Hkj. split; intros Hg; [apply Hki | apply Hkj];
      apply Hinj; congruence. }
  destruct Hs as [H | H]; [left | right]; intros k c Hki Hkj Hk;
    destruct (Hother k Hki Hkj) as [H1 H2];
    apply (H (g k) c H1 H2); rewrite <- Hnth; exact Hk.
Qed.

Lemma general_case_permutation (f g : t) (e : Vector3d) :
  Permutation (epsilons f) (epsilons g) ->
  general_case f e = general_case g e.
Proof.
  intros HP.
  assert (HP' : Permutation (epsilons f ++ [e]) (epsilons g ++ [e]))
    by (apply Permutation_app_tail, HP).
  destruct (general_case f e) eqn:Hf; destruct (general_case g e) eqn:Hg;
    try reflexivity; exfalso.
  - apply general_case_iff in Hf. destruct Hf as (i & j & Hw).
    destruct (pair_witness_permutation _ _ i j HP' Hw) as (i' & j' & Hw').
    assert (general_case g e = true)
      by (apply general_case_iff; eauto).
    congruence.
  - apply general_case_iff in Hg. destruct Hg as (i & j & Hw).
    destruct (pair_witness_permutation _ _ i j (Permutation_sym HP') Hw)
      as (i' & j' & Hw').
    assert (general_case f e = true)
      by (apply general_case_iff; eauto).
    congruence.
Qed.

Lemma checkPlanar_permutation (f g : t) (v : Vector3d) :
  Permutation (epsilons f) (epsilons g) ->
  checkPlanar f v = checkPlanar g v.
Proof.
  intros HP.
  assert (Hiff : checkPlanar f v = PLANAR_SUCCESS <->
                 checkPlanar g v = PLANAR_SUCCESS).
  { rewrite !checkPlanar_success_parallel.
    rewrite (Permutation_length HP). unfold crosses_parallel.
    split; intros (Hlen & Hnz & Hpar); (split; [exact Hlen |]); split.
    - intros a Ha. apply Hnz. apply (Permutation_in _ (Permutation_sym HP)), Ha.
    - intros a b Ha Hb.
      apply Hpar; apply (Permutation_in _ (Permutation_sym HP)); assumption.
    - intros a Ha. apply Hnz. apply (Permutation_in _ HP), Ha.
    - intros a b Ha Hb. apply Hpar; apply (Permutation_in _ HP); assumption. }
  destruct (FeatureFacts.checkPlanar_no_fail f v) as [Hf | Hf];
    destruct (FeatureFacts.checkPlanar_no_fail g v) as [Hg | Hg];
    rewrite Hf, Hg; try reflexivity; exfalso.
  - apply Hiff in Hf. congruence.
  - apply Hiff in Hg. congruence.
Qed.


End StoredOrder.

(** ** Candidates that are always accepted *)

Module Acceptance.

Import EigenFacts Feature FeatureSpec FeatureSearch FeatureUse
  FeatureHalfSpace PushInvariants StoredOrder.

Lemma dot_vdiv_r (n e : Vector3d) (s : R) :
  s <> 0 -> dot n (vdiv e s) = dot n e / s.
Proof. intros Hs. unfold dot, vdiv; simpl. field. exact Hs. Qed.

(** [(a x e) x (b x e) = - ((a x e) . b) e] *)
Lemma cross_cross (a b e : Vector3d) :
  cross (cross a e) (cross b e) = vscale (- dot (cross a e) b) e.
Proof. unfold cross, vscale, dot; simpl. f_equal; ring. Qed.

Lemma triple_swap (a b e : Vector3d) :
  dot (cross b e) a = dot (cross a b) e.
Proof. unfold cross, dot; simpl. ring. Qed.

Lemma vscale_zero_inv (s : R) (e : Vector3d) :
  vscale s e = zero -> s <> 0 -> e = zero.
Proof.
  destruct e as [x y z]. unfold vscale, zero; simpl. intros H Hs.
  injection H as Hx Hy Hz.
  apply Rmult_integral in Hx, Hy, Hz.
  f_equal; tauto.
Qed.

Lemma unit_nonzero (u : Vector3d) : squaredNorm u = 1 -> u <> zero.
Proof.
  intros Hu ->. rewrite squaredNorm_zero in Hu. lra.
Qed.


(** The determinant of three vectors orthogonal to a vector that is not
    zero vanishes. *)
Lemma coplanar_triple (m a e b : Vector3d) :
  m <> zero -> dot m a = 0 -> dot m e = 0 -> dot m b = 0 ->
  dot (cross a e) b = 0.
Proof.
  destruct m as [mx my mz], a as [ax ay az], e as [ex ey ez],
    b as [bx by_ bz].
  unfold dot, cross, zero; simpl. intros Hm Ha He Hb.
  set (det := (ay * ez - az * ey) * bx + (az * ex - ax * ez) * by_
              + (ax * ey - ay * ex) * bz).
  assert (Hx : det * mx = 0).
  { replace (det * mx)
      with ((ey * bz - ez * by_) * (mx * ax + my * ay + mz * az)
            + (by_ * az - bz * ay) * (mx * ex + my * ey + mz * ez)
            + (ay * ez - az * ey) * (mx * bx + my * by_ + mz * bz))
      by (unfold det; ring).
    rewrite Ha, He, Hb. ring. }
  assert (Hy : det * my = 0).
  { replace (det * my)
      with ((ez * bx - ex * bz) * (mx * ax + my * ay + mz * az)
            + (bz * ax - bx * az) * (mx * ex + my * ey + mz * ez)
            + (az * ex - ax * ez) * (mx * bx + my * by_ + mz * bz))
      by (unfold det; ring).
    rewrite Ha, He, Hb. ring. }
  assert (Hz : det * mz = 0).
  { replace (det * mz)
      with ((ex * by_ - ey * bx) * (mx * ax + my * ay + mz * az)
            + (bx * ay - by_ * ax) * (mx * ex + my * ey + mz * ez)
            + (ax * ey - ay * ex) * (mx * bx + my * by_ + mz * bz))
      by (unfold det; ring).
    rewrite Ha, He, Hb. ring. }
  destruct (Req_dec_T det 0) as [H0 | H0]; [exact H0 |].
  exfalso. apply Hm.
  apply Rmult_integral in Hx, Hy, Hz.
  f_equal; tauto.
Qed.

Lemma dot_one_equal (a b : Vector3d) :
  squaredNorm a = 1 -> squaredNorm b = 1 -> dot a b = 1 -> a = b.
Proof.
  destruct a as [ax ay az], b as [bx by_ bz].
  unfold squaredNorm, dot; simpl. intros Ha Hb Hd.
  remember (ax - bx) as sx. remember (ay - by_) as sy.
  remember (az - bz) as sz.
  assert (Hs : sx * sx + sy * sy + sz * sz = 0) by (subst; nra).
  assert (sx = 0) by nra. assert (sy = 0) by nra. assert (sz = 0) by nra.
  f_equal; lra.
Qed.

(** In a plane, the planar exit accepts whenever the antipode of the
    candidate is not stored. *)
Lemma coplanar_planar_exit (f : t) (u : Vector3d) :
  (2 <= length (epsilons f))%nat ->
  unit_vectors (epsilons f) ->
  squaredNorm u = 1 ->
  ~ In u (epsilons f) ->
  ~ In (vopp u) (epsilons f) ->
  coplanar (epsilons f ++ [u]) ->
  isCompatible_exit f u = (true, ExitPlanar).
Proof.
  intros Hlen Hunits Hu Hnew Hanti (m & Hm & Hplane).
  assert (Hmu : dot m u = 0)
    by (apply Hplane, in_or_app; right; left; reflexivity).
  assert (HS : checkPlanar f u = PLANAR_SUCCESS).
  { apply checkPlanar_success_parallel. split; [exact Hlen |].
    rewrite (normalized_unit u Hu). split.
    - intros a Ha Hx.
      pose proof (Hunits a Ha) as Hua.
      pose proof (lagrange a u) as HL.
      rewrite Hx, squaredNorm_zero, Hua, Hu in HL.
      assert (Hd : dot a u = 1 \/ dot a u = -1).
      { assert (Hsq : (dot a u - 1) * (dot a u + 1) = 0) by lra.
        apply Rmult_integral in Hsq. destruct Hsq; [left | right]; lra. }
      destruct Hd as [Hd | Hd].
      + apply Hnew. rewrite <- (dot_one_equal a u Hua Hu Hd). exact Ha.
      + apply (FeatureFacts.dot_minus_one_antipode a u Hua Hu) in Hd.
        apply Hanti. rewrite <- Hd. exact Ha.
    - intros a b Ha Hb. rewrite cross_cross.
      rewrite (coplanar_triple m a u b Hm); [| | exact Hmu |].
      + unfold vscale, zero; simpl. f_equal; ring.
      + apply Hplane, in_or_app; left; exact Ha.
      + apply Hplane, in_or_app; left; exact Hb. }
  rewrite (isCompatible_exit_unit f u Hu).
  destruct (epsilons f) as [| e1 [| e2 rest]] eqn:Heps;
    try (simpl in Hlen; lia).
  destruct (existsb (veqb u) (e1 :: e2 :: rest)) eqn:Hex.
  - apply existsb_veqb_In in Hex. contradiction.
  - rewrite HS. reflexivity.
Qed.




End Acceptance.

(** ** The compatibility invariant along sequences of pushes *)

Module CompatibleInvariant.

Import EigenFacts Feature FeatureSpec FeatureSearch FeatureUse
  FeatureHalfSpace PushInvariants.

(** An epsilon is only appended at an exit that is not the early exit for
    stored candidates. *)
Lemma appended_not_present (f : t) (e : Vector3d) :
  ~ In (normalized e) (epsilons f) -> norm e <> 0 ->
  snd (isCompatible_exit f e) <> ExitPresent.
Proof.
  intros Hnew Hn. rewrite (normalized_vdiv e Hn) in Hnew.
  unfold isCompatible_exit.
  destruct (Req_dec_T (norm e) 0); [discriminate |].
  destruct (epsilons f) as [| e1 [| e2 rest]]; try discriminate.
  destruct (existsb _ _) eqn:Hex.
  - apply existsb_veqb_In in Hex. contradiction.
  - destruct (checkPlanar _ _); discriminate.
Qed.

Lemma push_half_space (f : t) (e : Vector3d) (c : Choice) :
  unit_vectors (epsilons f) -> half_space (epsilons f) ->
  snd (isCompatible_exit f e) <> ExitPlanar ->
  half_space (epsilons (snd (push f e c))).
Proof.
  intros Hu HS Hexit.
  destruct (push_epsilons f e c) as [-> | (Hacc & Hnew & ->)]; [exact HS |].
  pose proof (isCompatible_norm_neq_0 f e Hacc) as Hn.
  rewrite (normalized_vdiv e Hn).
  apply (accepted_half_space f e (snd (isCompatible_exit f e))); auto.
  - intros ->. apply Hn, norm_zero.
  - unfold isCompatible in Hacc.
    destruct (isCompatible_exit f e) as [r x]. simpl in *. subst r.
    reflexivity.
  - apply appended_not_present; assumption.
Qed.


Lemma push_lengths (f : t) (e : Vector3d) (c : Choice) :
  (length (epsilons f) <= length (choices f))%nat ->
  (length (epsilons (snd (push f e c)))
   <= length (choices (snd (push f e c))))%nat.
Proof.
  intros H. unfold push. destruct (isCompatible f e); [| exact H].
  destruct (existsb _ _); simpl; rewrite ?length_app; simpl; lia.
Qed.

(** There are never more epsilons than choices: [push] and [push_raw]
    record one choice per accepted call and store at most one epsilon for
    it. *)
Theorem epsilons_at_most_choices (f : t) (ops : list (Vector3d * Choice)) :
  (length (epsilons f) <= length (choices f))%nat ->
  (length (epsilons (push_seq f ops))
   <= length (choices (push_seq f ops)))%nat /\
  (forall c v, (length (epsilons (push_raw f c v))
                <= length (choices (push_raw f c v)))%nat).
Proof.
  intros H. split.
  - revert f H. induction ops as [| [e c] ops IH]; intros f H; [exact H |].
    simpl. apply IH, push_lengths, H.
  - intros c v. simpl. rewrite !length_app. simpl. lia.
Qed.

End CompatibleInvariant.

(** ** Instances of the further properties *)

Module FurtherInstances.

Import EigenFacts Feature FeatureSpec FeatureSearch FeatureUse Scenarios
  FeatureScenarios PushInvariants Direction StoredOrder Acceptance
  CompatibleInvariant.

Lemma cone5_distinct : NoDup (epsilons cone5).
Proof.
  simpl. repeat constructor; simpl; intros H;
    repeat (destruct H as [H | H]; [injection H; intros; lra |]);
    exact H.
Qed.


Lemma epsilons_stay_distinct_witness :
  NoDup (epsilons cone5) /\
  NoDup (epsilons (push_seq cone5 [(outside, c0); (outside, c1)])).
Proof.
  split; [exact cone5_distinct |].
  exact (epsilons_stay_distinct cone5 [(outside, c0); (outside, c1)]
           cone5_distinct).
Defined.

Lemma empty_mapped : choices_mapped empty.
Proof. intros c []. Qed.

Lemma empty_accepts_x : isCompatible empty (Vec3 1 0 0) = true.
Proof.
  apply FeatureFacts.isCompatible_empty; [reflexivity |].
  unfold zero. intros H. injection H. intros. lra.
Qed.

Lemma choices_stay_mapped_witness :
  choices_mapped empty /\
  choices_mapped (push_seq empty [(Vec3 1 0 0, c0); (Vec3 0 2 0, c1)]) /\
  choices_mapped (push_raw empty c0 (Vec3 0 0 3)) /\
  hd_error (choices (snd (push empty (Vec3 1 0 0) c1))) = Some c1 /\
  _epsilons (snd (push empty (Vec3 1 0 0) c1)) (id c1) = Some (Vec3 1 0 0).
Proof.
  destruct (choices_stay_mapped empty
              [(Vec3 1 0 0, c0); (Vec3 0 2 0, c1)] empty_mapped)
    as (Hseq & Hraw & Hpush).
  split; [exact empty_mapped |]. split; [exact Hseq |].
  split; [apply Hraw |].
  exact (Hpush (Vec3 1 0 0) c1 empty_accepts_x).
Defined.

Lemma cone5_push_outside_true : fst (push cone5 outside c0) = true.
Proof. rewrite cone5_push_outside. reflexivity. Qed.

Lemma push_again_witness :
  fst (push cone5 outside c0) = true /\
  fst (push (snd (push cone5 outside c0)) outside c1) = true /\
  epsilons (snd (push (snd (push cone5 outside c0)) outside c1))
    = epsilons (snd (push cone5 outside c0)).
Proof.
  split; [exact cone5_push_outside_true |].
  destruct (push_again cone5 outside c0 c1 cone5_push_outside_true)
    as (H1 & H2 & _).
  split; assumption.
Defined.

Lemma two_pos : 0 < 2.
Proof. lra. Qed.


Lemma norm_m2_0_0 : norm (Vec3 (-2) 0 0) = 2.
Proof.
  apply norm_of_square; [lra |]. unfold squaredNorm, dot; simpl. ring.
Qed.

Lemma m2_nonzero : Vec3 (-2) 0 0 <> zero.
Proof. unfold zero. intros H. injection H. intros. lra. Qed.


Lemma xy_axis_z_not_parallel :
  ~ ((2 <= length (epsilons xy_pair))%nat /\
     crosses_parallel (epsilons xy_pair) (normalized (Vec3 0 0 1))).
Proof.
  intros [_ [_ Hpar]].
  assert (Hz : squaredNorm (Vec3 0 0 1) = 1)
    by (unfold squaredNorm, dot; simpl; ring).
  rewrite (normalized_unit _ Hz) in Hpar.
  specialize (Hpar (Vec3 1 0 0) (Vec3 0 1 0)
                (or_introl eq_refl) (or_intror (or_introl eq_refl))).
  unfold cross, zero in Hpar; simpl in Hpar. injection Hpar. intros. lra.
Qed.


Lemma yx_permutation :
  Permutation (epsilons (with_epsilons [Vec3 0 1 0; Vec3 1 0 0]))
              (epsilons xy_pair).
Proof. simpl. apply perm_swap. Qed.


Lemma unit_x : squaredNorm (Vec3 1 0 0) = 1.
Proof. unfold squaredNorm, dot; simpl. ring. Qed.

Lemma unit_y : squaredNorm (Vec3 0 1 0) = 1.
Proof. unfold squaredNorm, dot; simpl. ring. Qed.

Lemma off_plane : dot (cross (Vec3 1 0 0) (Vec3 0 1 0)) (Vec3 (-5) (-5) 1) <> 0.
Proof. unfold dot, cross; simpl. lra. Qed.


Lemma xy_units : unit_vectors (epsilons xy_pair).
Proof.
  intros v [<- | [<- | []]]; unfold squaredNorm, dot; simpl; ring.
Qed.

Lemma xy_two : (2 <= length (epsilons xy_pair))%nat.
Proof. simpl. lia. Qed.

Lemma norm_unit_vec (v : Vector3d) : squaredNorm v = 1 -> norm v = 1.
Proof. intros H. apply norm_of_square; [lra | rewrite H; ring]. Qed.

Lemma vdiv_norm_unit (v : Vector3d) :
  squaredNorm v = 1 -> vdiv v (norm v) = v.
Proof. intros H. rewrite (norm_unit_vec v H). apply vdiv_1. Qed.

Lemma between_unit : squaredNorm between = 1.
Proof. unfold squaredNorm, dot, between; simpl. lra. Qed.

Lemma behind_unit : squaredNorm behind = 1.
Proof. unfold squaredNorm, dot, behind; simpl. lra. Qed.

Lemma between_nonzero : between <> zero.
Proof. unfold between, zero. intros H. injection H. intros. lra. Qed.

Lemma behind_nonzero : behind <> zero.
Proof. unfold behind, zero. intros H. injection H. intros. lra. Qed.

Lemma in_plane_z (v : Vector3d) :
  vz v = 0 -> coplanar (epsilons xy_pair ++ [v]).
Proof.
  intros Hz. exists (Vec3 0 0 1). split.
  - unfold zero. intros H. injection H. intros. lra.
  - intros w [<- | [<- | [<- | []]]]; unfold dot; simpl; rewrite ?Hz; ring.
Qed.

Lemma between_new : ~ In (vdiv between (norm between)) (epsilons xy_pair).
Proof.
  rewrite (vdiv_norm_unit _ between_unit). unfold between. simpl.
  intros [H | [H | []]]; injection H; intros; lra.
Qed.

Lemma behind_new : ~ In (vdiv behind (norm behind)) (epsilons xy_pair).
Proof.
  rewrite (vdiv_norm_unit _ behind_unit). unfold behind. simpl.
  intros [H | [H | []]]; injection H; intros; lra.
Qed.

Lemma between_half_space :
  half_space (epsilons xy_pair ++ [vdiv between (norm between)]).
Proof.
  rewrite (vdiv_norm_unit _ between_unit). exists (Vec3 1 1 0).
  intros w [<- | [<- | [<- | []]]]; unfold dot, between; simpl; lra.
Qed.


Lemma behind_antipode_new :
  ~ In (vopp (vdiv behind (norm behind))) (epsilons xy_pair).
Proof.
  rewrite (vdiv_norm_unit _ behind_unit). unfold behind, vopp. simpl.
  intros [H | [H | []]]; injection H; intros; lra.
Qed.



Lemma small_not_planar (f : t) (e : Vector3d) :
  (length (epsilons f) < 2)%nat ->
  snd (isCompatible_exit f e) <> ExitPlanar.
Proof.
  intros Hlen. unfold isCompatible_exit.
  destruct (Req_dec_T (norm e) 0); [discriminate |].
  destruct (epsilons f) as [| e1 [| e2 rest]]; try discriminate.
  simpl in Hlen. lia.
Qed.

Lemma two_pushes_planar_free :
  planar_free empty [(Vec3 1 0 0, c0); (Vec3 0 2 0, c1)].
Proof.
  simpl. split; [apply small_not_planar; simpl; lia |].
  split; [| exact I].
  apply small_not_planar.
  destruct (push_epsilons empty (Vec3 1 0 0) c0) as [-> | (_ & _ & ->)];
    simpl; lia.
Qed.

Lemma nothing_units : unit_vectors (epsilons empty).
Proof. intros v []. Qed.

Lemma nothing_half_space : half_space (epsilons empty).
Proof. exists zero. intros v []. Qed.


Lemma nothing_lengths :
  (length (epsilons empty) <= length (choices empty))%nat.
Proof. simpl. lia. Qed.

Lemma epsilons_at_most_choices_witness :
  (length (epsilons (push_seq empty [(Vec3 1 0 0, c0); (Vec3 2 0 0, c1)]))
   <= length (choices (push_seq empty [(Vec3 1 0 0, c0); (Vec3 2 0 0, c1)])))%nat.
Proof.
  exact (proj1 (epsilons_at_most_choices empty
                  [(Vec3 1 0 0, c0); (Vec3 2 0 0, c1)] nothing_lengths)).
Defined.

End FurtherInstances.
